(** * Netflix-Scraper: price-text normalisation and batched scraping

    A shallow embedding of [src/netflix_scraper.py].

    - Python [str] values are sequences of Unicode code points: [list N].
    - The three library services the parser relies on ([str.strip],
      [str.lower], the [re] engine on the three patterns of the source) are
      embedded for exactly the patterns the source uses.
    - Browser interaction is embedded as explicit state passing over a
      [World] (console, event trace, tab counter) with Python exceptions as
      an [outcome]. *)

From Stdlib Require Import NArith Ascii String List Lia.
From stdpp Require Import base option list sorting gmap strings.
From Equations Require Import Equations.

Local Open Scope N_scope.

(** ** Python strings *)

Definition str := list N.

(** An ASCII literal of the source as a sequence of code points. *)
Definition lit (s : string) : str := map N_of_ascii (list_ascii_of_string s).

(** Truth value of a string in a condition ([if s], [not s], [s and ...]):
    a string is true exactly when it is non-empty. *)
Definition truthy (s : str) : bool :=
  match s with [] => false | _ :: _ => true end.

(** [str.isspace] on one code point; [str.strip] and the pattern [\s] of a
    [str] regular expression use the same table. *)
Definition isspace (c : N) : bool :=
  ((0x09 <=? c) && (c <=? 0x0D)) || ((0x1C <=? c) && (c <=? 0x20))
  || (c =? 0x85) || (c =? 0xA0) || (c =? 0x1680)
  || ((0x2000 <=? c) && (c <=? 0x200A))
  || (c =? 0x2028) || (c =? 0x2029) || (c =? 0x202F) || (c =? 0x205F)
  || (c =? 0x3000).

(** The code points of the digit zero in every decimal number system of the
    Unicode character database (general category Nd, version 14); the nine
    code points that follow each of them are its digits one to nine. *)
Definition decimal_zeros : list N :=
  [ 0x30; 0x660; 0x6F0; 0x7C0; 0x966; 0x9E6; 0xA66; 0xAE6; 0xB66; 0xBE6;
    0xC66; 0xCE6; 0xD66; 0xDE6; 0xE50; 0xED0; 0xF20; 0x1040; 0x1090; 0x17E0;
    0x1810; 0x1946; 0x19D0; 0x1A80; 0x1A90; 0x1B50; 0x1BB0; 0x1C40; 0x1C50;
    0xA620; 0xA8D0; 0xA900; 0xA9D0; 0xA9F0; 0xAA50; 0xABF0; 0xFF10; 0x104A0;
    0x10D30; 0x11066; 0x110F0; 0x11136; 0x111D0; 0x112F0; 0x11450; 0x114D0;
    0x11650; 0x116C0; 0x11730; 0x118E0; 0x11950; 0x11C50; 0x11D50; 0x11DA0;
    0x16A60; 0x16AC0; 0x16B50; 0x1D7CE; 0x1D7D8; 0x1D7E2; 0x1D7EC; 0x1D7F6;
    0x1E140; 0x1E2F0; 0x1E950; 0x1FBF0 ].

(** The pattern [\d] of a [str] regular expression. *)
Definition isdecimal (c : N) : bool :=
  existsb (fun z => (z <=? c) && (c <? z + 10)) decimal_zeros.

(** [str.lower] on one code point.  The capitals A-Z map to a-z.  Outside
    ASCII only two code points have a lower case that contains an ASCII
    character: U+0130 (to i followed by U+0307) and U+212A (to k).  Every
    other cased code point outside ASCII maps to code points outside ASCII;
    the source only asks whether the lowered text contains the ASCII word
    month, so those are kept as they are. *)
Definition lower_char (c : N) : list N :=
  if (0x41 <=? c) && (c <=? 0x5A) then [c + 32]
  else if c =? 0x130 then [0x69; 0x307]
  else if c =? 0x212A then [0x6B]
  else [c].

Definition lower (s : str) : str := concat (map lower_char s).

(** [p in s] on strings. *)
Fixpoint startswith (p s : str) : bool :=
  match p, s with
  | [], _ => true
  | _ :: _, [] => false
  | a :: p', b :: s' => (a =? b) && startswith p' s'
  end.

Fixpoint contains (p s : str) : bool :=
  startswith p s ||
  match s with
  | [] => false
  | _ :: s' => contains p s'
  end.

Fixpoint take_while (f : N -> bool) (s : str) : str :=
  match s with
  | [] => []
  | c :: s' => if f c then c :: take_while f s' else []
  end.

Fixpoint drop_while (f : N -> bool) (s : str) : str :=
  match s with
  | [] => []
  | c :: s' => if f c then drop_while f s' else s
  end.

(** [str.strip()] without argument. *)
Definition lstrip (s : str) : str := drop_while isspace s.
Definition rstrip (s : str) : str := rev (drop_while isspace (rev s)).
Definition strip (s : str) : str := rstrip (lstrip s).

(** [s.replace(",", "")]. *)
Definition comma : N := 0x2C.
Definition remove_commas (s : str) : str :=
  filter (fun c => c ≠ comma) s.

(** The first colon of [s]: the text before it and the text after it. *)
Definition colon : N := 0x3A.
Fixpoint partition_colon (s : str) : option (str * str) :=
  match s with
  | [] => None
  | c :: s' =>
      if c =? colon then Some ([], s')
      else match partition_colon s' with
           | Some (a, b) => Some (c :: a, b)
           | None => None
           end
  end.

(** [s.split(":", 1)]: at most one split, at the first colon. *)
Definition split_colon_1 (s : str) : list str :=
  match partition_colon s with
  | Some (a, b) => [a; b]
  | None => [s]
  end.

(** ** The regular expressions of [extract_price_details] *)

(** One letter of a pattern compiled with [re.IGNORECASE].  For the letters
    of the word month the engine accepts the letter itself and its ASCII
    capital, and no code point outside ASCII. *)
Definition match_letter (p c : N) : bool :=
  (c =? p) || ((0x41 <=? c) && (c <=? 0x5A) && (c + 32 =? p)).

(** A literal word under [re.IGNORECASE], anchored at the start of [s]; the
    result is the text after the match. *)
Fixpoint match_word (p s : str) : option str :=
  match p, s with
  | [], _ => Some s
  | _ :: _, [] => None
  | a :: p', c :: s' => if match_letter a c then match_word p' s' else None
  end.

(** The pattern [/\s*month] anchored at the start of [s].  The greedy [\s*]
    never has to give a character back, since no letter of the word is a
    space. *)
Definition slash : N := 0x2F.
Definition match_marker (s : str) : option str :=
  match s with
  | [] => None
  | c :: s' =>
      if c =? slash then match_word (lit "month") (drop_while isspace s')
      else None
  end.

(** Leftmost match of [/\s*month] in [s]: the text before it and the text
    after it. *)
Fixpoint find_marker (s : str) : option (str * str) :=
  match match_marker s with
  | Some rest => Some ([], rest)
  | None =>
      match s with
      | [] => None
      | c :: s' =>
          match find_marker s' with
          | Some (pre, rest) => Some (c :: pre, rest)
          | None => None
          end
      end
  end.

Definition inspect {A} (a : A) : {b | a = b} := exist _ a eq_refl.

(** [re.split(r"/\s*month", s, flags=re.IGNORECASE)]: the pieces of [s]
    between all successive matches (no [maxsplit] is given). *)
Equations? re_split_month (s : str) : list str by wf (length s) lt :=
  re_split_month s with inspect (find_marker s) := {
    | exist _ None _ => [s]
    | exist _ (Some (pre, rest)) H => pre :: re_split_month rest }.
Proof.
  clear re_split_month.
  assert (Hm : forall p t r, match_word p t = Some r -> (length r <= length t)%nat).
  { induction p as [|a p IH]; intros [|c t] r Hr; simpl in Hr; try discriminate.
    - injection Hr as <-. lia.
    - injection Hr as <-. lia.
    - destruct (match_letter a c); [|discriminate].
      apply IH in Hr. simpl. lia. }
  assert (Hd : forall t, (length (drop_while isspace t) <= length t)%nat).
  { induction t as [|c t IH]; simpl; [lia|].
    destruct (isspace c); simpl; lia. }
  revert pre rest H.
  induction s as [|c s IH]; intros pre rest H.
  - discriminate.
  - cbn [find_marker match_marker] in H.
    destruct (c =? slash).
    + destruct (match_word (lit "month") (drop_while isspace s)) as [r|] eqn:E.
      * injection H as <- <-. apply Hm in E. specialize (Hd s). simpl. lia.
      * destruct (find_marker s) as [[p r]|]; [|discriminate].
        injection H as <- <-. specialize (IH _ _ eq_refl). simpl. lia.
    + destruct (find_marker s) as [[p r]|]; [|discriminate].
      injection H as <- <-. specialize (IH _ _ eq_refl). simpl. lia.
Qed.

(** [re.search(r"([C]+)", s)] for a character class [C], followed by
    [.group(1)]: the longest run of class characters that starts at the
    first class character of [s]. *)
Fixpoint re_search_run (cls : N -> bool) (s : str) : option str :=
  match s with
  | [] => None
  | c :: s' =>
      if cls c then Some (c :: take_while cls s') else re_search_run cls s'
  end.

Definition period : N := 0x2E.

(** The class [[\d,.]]. *)
Definition number_class (c : N) : bool :=
  isdecimal c || (c =? comma) || (c =? period).

(** The class [[^\d\s,.]]. *)
Definition currency_class (c : N) : bool :=
  negb (isdecimal c || isspace c || (c =? comma) || (c =? period)).

(** ** [extract_price_details] (lines 10-32) *)

Definition extract_price_details (price_text : str) : str * str * str :=
  if negb (truthy price_text)
     || negb (contains (lit "month") (lower price_text))
  then (lit "Unknown", [], price_text)
  else
    let text := strip price_text in
    let month_split := re_split_month text in
    let price_part := strip (nth 0 month_split []) in
    let note_part :=
      if (1 <? length month_split)%nat then strip (nth 1 month_split [])
      else [] in
    let number_match := re_search_run number_class price_part in
    let currency_match := re_search_run currency_class price_part in
    let amount :=
      match number_match with
      | Some g => remove_commas g
      | None => []
      end in
    let currency :=
      match currency_match with
      | Some g => g
      | None => lit "Unknown"
      end in
    (currency, amount, note_part).

(** ** Exceptions, console and browser events *)

(** The result of a Python call: a value, a raised exception of the class
    [Exception] whose [str(e)] is [msg], or a raised exception that is not
    an [Exception] (a [BaseException] such as [asyncio.CancelledError] or
    [KeyboardInterrupt]). *)
Inductive outcome (A : Type) : Type :=
| Return (a : A)
| Raise (msg : str)
| RaiseBase (msg : str).
Arguments Return {A} a.
Arguments Raise {A} msg.
Arguments RaiseBase {A} msg.

(** What the orchestrator does to the browser, in the order it happens. *)
Inductive Event : Type :=
| TabOpened (tab : nat)
| ScrapeStarted (tab : nat)
| ScrapeFinished (tab : nat)
| TabClosed (tab : nat).

Record World : Type := {
  console : list str;      (* lines printed so far, oldest first *)
  trace : list Event;      (* browser events so far, oldest first *)
  tabs_opened : nat        (* number of tabs the context has opened *)
}.

Definition IO (A : Type) : Type := World -> outcome A * World.

#[global] Instance IO_ret : MRet IO := fun A a w => (Return a, w).

#[global] Instance IO_bind : MBind IO := fun A B k m w =>
  match m w with
  | (Return a, w') => k a w'
  | (Raise msg, w') => (Raise msg, w')
  | (RaiseBase msg, w') => (RaiseBase msg, w')
  end.

(** [await] of a page operation whose result the environment decides. *)
Definition await {A} (o : outcome A) : IO A := fun w => (o, w).

(** [try: body except Exception as e: handler e].  An exception that is
    not an [Exception] is not caught. *)
Definition try_except {A} (body : IO A) (handler : str -> IO A) : IO A :=
  fun w =>
    match body w with
    | (Return a, w') => (Return a, w')
    | (Raise msg, w') => handler msg w'
    | (RaiseBase msg, w') => (RaiseBase msg, w')
    end.

(** [try: body except: handler], the bare [except:] that catches every
    exception. *)
Definition try_except_all {A} (body : IO A) (handler : IO A) : IO A :=
  fun w =>
    match body w with
    | (Return a, w') => (Return a, w')
    | (Raise _, w') => handler w'
    | (RaiseBase _, w') => handler w'
    end.

(** [print(line)]; writing a line to the console is taken to succeed. *)
Definition print (line : str) : IO unit := fun w =>
  (Return tt,
   {| console := console w ++ [line];
      trace := trace w;
      tabs_opened := tabs_opened w |}).

Definition emit (e : Event) : IO unit := fun w =>
  (Return tt,
   {| console := console w;
      trace := trace w ++ [e];
      tabs_opened := tabs_opened w |}).

(** [for x in xs: acc = body acc x], stopping at the first exception. *)
Fixpoint for_each {A B} (body : B -> A -> IO B) (xs : list A) (acc : B) : IO B :=
  match xs with
  | [] => mret acc
  | x :: xs' => acc' ← body acc x; for_each body xs' acc'
  end.

(** ** The browser page and the parsed document *)

(** The element handle returned by [page.wait_for_selector]. *)
Record InputBox : Type := {
  fill : str -> outcome unit;
  type : str -> outcome unit;
  press : str -> outcome unit
}.

(** A browser tab.  Each operation either returns or raises; what it does is
    the environment's choice, so a page is given by the outcome of every
    call that can be made on it. *)
Record Page : Type := {
  goto : str -> N -> outcome unit;
  wait_for_timeout : N -> outcome unit;
  click : str -> N -> outcome unit;
  wait_for_selector : str -> outcome InputBox;
  content : outcome str
}.

(** The HTML parsing library, as far as the source calls it. *)
Class DocumentView : Type := {
  Soup : Type;
  Tag : Type;
  BeautifulSoup : str -> str -> Soup;
  find : Soup -> str -> (option str -> bool) -> option Tag;
  find_next : Tag -> str -> option Tag;
  find_all : Tag -> str -> list Tag;
  text : Tag -> str
}.

(** ** [process_country] (lines 38-86) *)

Record PriceRecord : Type := {
  Country : str;
  Plan : str;
  Price : str;
  Currency : str;
  Amount : str;
  Note : str
}.

Definition help_url : str := lit "https://help.netflix.com/en/node/24926".
Definition cookie_button : str := lit "#onetrust-accept-btn-handler".
Definition text_input : str :=
  lit "//input[@type=" ++ [0x22] ++ lit "text" ++ [0x22] ++ lit "]".

(** [lambda s: s and "Pricing" in s], applied to the [.string] of a tag
    ([None] when the tag has none). *)
Definition pricing_filter (s : option str) : bool :=
  match s with
  | None => false
  | Some s => truthy s && contains (lit "Pricing") s
  end.

Section Scraper.
Context `{DocumentView}.

(** The body of the loop over the list items (lines 66-77). *)
Definition li_row (country : str) (results : list PriceRecord) (li : Tag)
  : IO (list PriceRecord) :=
  if contains (lit ":") (text li) then
    match split_colon_1 (strip (text li)) with
    | [plan; price_text] =>
        let '(currency, amount, note) :=
          extract_price_details (strip price_text) in
        mret (results ++
              [ {| Country := country;
                   Plan := strip plan;
                   Price := strip price_text;
                   Currency := currency;
                   Amount := amount;
                   Note := note |} ])
    | _ => await (Raise (lit "not enough values to unpack (expected 2, got 1)"))
    end
  else mret results.

(** The block that the outer [try] of [process_country] guards
    (lines 41-81). *)
Definition process_country_try (country : str) (page : Page)
  : IO (list PriceRecord) :=
  await (goto page help_url 60000);;
  await (wait_for_timeout page 2000);;
  try_except_all (await (click page cookie_button 3000)) (mret tt);;
  await (click page (lit "div.css-hlgwow") 5000);;
  input_box ← await (wait_for_selector page text_input);
  await (fill input_box []);;
  await (type input_box country);;
  await (press input_box (lit "Enter"));;
  await (wait_for_timeout page 3000);;
  content ← await (content page);
  let soup := BeautifulSoup content (lit "html.parser") in
  let pricing_header := find soup (lit "h3") pricing_filter in
  results ←
    match pricing_header with
    | Some header =>
        match find_next header (lit "ul") with
        | Some ul => for_each (li_row country) (find_all ul (lit "li")) []
        | None => mret []
        end
    | None => mret []
    end;
  results ←
    (if negb (match results with [] => false | _ :: _ => true end)
     then mret (results ++
                [ {| Country := country; Plan := lit "N/A";
                     Price := lit "N/A"; Currency := [];
                     Amount := []; Note := [] |} ])
     else mret results);
  print ([0x2705; 0x20] ++ country);;
  mret results.

(** The handler of line 84, [except Exception as e] (lines 85-86). *)
Definition process_country_except (country : str) (e : str)
  : IO (list PriceRecord) :=
  print ([0x274C] ++ lit " Error: " ++ country ++ [0x20; 0x2014; 0x20] ++ e);;
  mret [ {| Country := country; Plan := lit "ERROR"; Price := e;
            Currency := []; Amount := []; Note := [] |} ].

(** [process_country]: the guarded block under the handler of line 84. *)
Definition process_country (country : str) (page : Page)
  : IO (list PriceRecord) :=
  try_except (process_country_try country page)
             (process_country_except country).

End Scraper.

(** ** The batches of [main] (lines 111-129) *)

(** [range(0, stop, step)] for a positive [step]. *)
Definition range_step (stop step : nat) : list nat :=
  map (fun k => (k * step)%nat) (seq 0 ((stop + step - 1) / step)%nat).

(** The slice [l[a:b]]; indices past the end are clamped. *)
Definition slice {A} (l : list A) (a b : nat) : list A := drop a (take b l).

(** A tab of the browser context: its number and the page behind it. *)
Record Tab : Type := { tab_id : nat; tab_page : Page }.

(** A coroutine created for a tab; it runs when [gather] awaits it. *)
Record Task (A : Type) : Type := { task_tab : nat; task_run : IO A }.
Arguments task_tab {A} t.
Arguments task_run {A} t.

(** Completion of the tasks of a [gather] in the order [order] of their
    positions: the result of the task at position [i] is stored in slot [i].
    A position that is out of range or already completed is skipped. *)
Fixpoint await_tasks {A} (tasks : list (Task A)) (order : list nat)
    (slots : list (option A)) : IO (list (option A)) :=
  match order with
  | [] => mret slots
  | i :: order' =>
      match tasks !! i, slots !! i with
      | Some t, Some None =>
          r ← task_run t;
          emit (ScrapeFinished (task_tab t));;
          await_tasks tasks order' (<[i := Some r]> slots)
      | _, _ => await_tasks tasks order' slots
      end
  end.

(** [asyncio.gather] on the tasks of a batch: all tasks are started, they complete in the
    order the event loop decides ([order], then every task still pending),
    and the results are returned by position.  An exception of a task is
    raised by [gather] as soon as the task raises it; what the tasks still
    pending do after that is not part of the run of the loop. *)
Definition gather {A} (order : list nat) (tasks : list (Task A)) : IO (list A) :=
  for_each (fun _ t => emit (ScrapeStarted (task_tab t))) tasks tt;;
  slots ← await_tasks tasks (order ++ seq 0 (length tasks))
            (replicate (length tasks) None);
  mret (omap id slots).

Definition batch_size : nat := 5.

Section Orchestrator.
Context `{DocumentView}.

(** The page behind the [k]-th tab that the browser context opens. *)
Variable browser_tab : nat -> Page.

(** For the batch that starts at index [i] of the country list, the order
    in which the event loop completes its tasks. *)
Variable completion_order : nat -> list nat.

(** [await context.new_page()]. *)
Definition new_page : IO Tab := fun w =>
  (Return {| tab_id := tabs_opened w; tab_page := browser_tab (tabs_opened w) |},
   {| console := console w;
      trace := trace w ++ [TabOpened (tabs_opened w)];
      tabs_opened := S (tabs_opened w) |}).

(** [await p.close()]. *)
Definition close (p : Tab) : IO unit := emit (TabClosed (tab_id p)).

(** The body of the loop over the countries of a batch (lines 119-122). *)
Definition open_tab (acc : list Tab * list (Task (list PriceRecord)))
    (country : str) : IO (list Tab * list (Task (list PriceRecord))) :=
  tab ← new_page;
  mret (acc.1 ++ [tab],
        acc.2 ++ [ {| task_tab := tab_id tab;
                      task_run := process_country country (tab_page tab) |} ]).

(** The body of the loop over the batches (lines 115-129). *)
Definition run_batch (countries : list str) (results : list PriceRecord)
    (i : nat) : IO (list PriceRecord) :=
  opened ← for_each open_tab (slice countries i (i + batch_size)) ([], []);
  batch_results ← gather (completion_order i) opened.2;
  let results := foldl (fun results res => results ++ res) results batch_results in
  for_each (fun _ p => close p) opened.1 tt;;
  mret results.

Definition main_batches (countries : list str) : IO (list PriceRecord) :=
  for_each (run_batch countries)
    (range_step (length countries) batch_size) [].

End Orchestrator.

(** ** Vocabulary of the specification *)

(** [c] is the lower-case ASCII letter [p] or its capital. *)
Definition case_variant (p c : N) : Prop := c = p \/ c = p - 32.

(** [w] spells the word month, in any mix of cases. *)
Definition spells_month (w : str) : Prop :=
  Forall2 case_variant (lit "month") w.

(** [s] has a case-insensitive substring month. *)
Definition has_month (s : str) : Prop :=
  exists pre w post, s = pre ++ w ++ post /\ spells_month w.

(** An occurrence of [/\s*month] in [s], with [pre] before it and [post]
    after it. *)
Definition marker_at (pre post s : str) : Prop :=
  exists ws w,
    s = pre ++ [slash] ++ ws ++ w ++ post
    /\ Forall (fun c => isspace c = true) ws
    /\ spells_month w.

Definition has_marker (s : str) : Prop :=
  exists pre post, marker_at pre post s.

(** [run] is the first maximal run of characters of the class [cls] in [s]. *)
Definition first_run (cls : N -> bool) (s run : str) : Prop :=
  exists pre post,
    s = pre ++ run ++ post
    /\ Forall (fun c => cls c = false) pre
    /\ run <> []
    /\ Forall (fun c => cls c = true) run
    /\ match post with [] => True | c :: _ => cls c = false end.

(** The price segment that [extract_price_details] scans: the text before
    the first occurrence of the marker (the whole text when there is none),
    trimmed. *)
Definition price_segment (price_text : str) : str :=
  match find_marker (strip price_text) with
  | Some (pre, _) => strip pre
  | None => strip (strip price_text)
  end.

(** The text after the first occurrence of the marker, trimmed. *)
Definition after_first_marker (price_text : str) : str :=
  match find_marker (strip price_text) with
  | Some (_, post) => strip post
  | None => []
  end.

(** A string is trimmed when stripping leaves it as it is. *)
Definition trimmed (t : str) : Prop := lstrip t = t /\ rstrip t = t.

(** The lower-case ASCII letters. *)
Definition lower_letter (p : N) : Prop := 0x61 <= p <= 0x7A.

(** A pattern letter that only its own case variants lower to. *)
Definition plain_letter (p : N) : Prop :=
  lower_letter p /\ p <> 0x69 /\ p <> 0x6B.

(** The text that [extract_price_details] returns as the note: what lies
    between the first and the second occurrence of the marker (after the
    first one when there is no second), trimmed. *)
Definition note_segment (price_text : str) : str :=
  match find_marker (strip price_text) with
  | Some (_, post) =>
      match find_marker post with
      | Some (mid, _) => strip mid
      | None => strip post
      end
  | None => []
  end.

(** The currency and the amount read from a price segment (lines 26-30). *)
Definition currency_token (segment : str) : str :=
  match re_search_run currency_class segment with
  | Some g => g
  | None => lit "Unknown"
  end.

Definition amount_token (segment : str) : str :=
  match re_search_run number_class segment with
  | Some g => remove_commas g
  | None => []
  end.

(** *** Vocabulary for [process_country] *)

#[global] Instance outcome_ret : MRet outcome := fun A a => Return a.

#[global] Instance outcome_bind : MBind outcome := fun A B k o =>
  match o with
  | Return a => k a
  | Raise msg => Raise msg
  | RaiseBase msg => RaiseBase msg
  end.

(** The calls on the page that the outer [try] of [process_country] guards
    and that no inner handler covers, in the order of the source: their
    first exception, or the rendered HTML when all of them return. *)
Definition navigation (country : str) (page : Page) : outcome str :=
  goto page help_url 60000;;
  wait_for_timeout page 2000;;
  click page (lit "div.css-hlgwow") 5000;;
  input_box ← wait_for_selector page text_input;
  fill input_box [];;
  type input_box country;;
  press input_box (lit "Enter");;
  wait_for_timeout page 3000;;
  content page.

Definition na_record (country : str) : PriceRecord :=
  {| Country := country; Plan := lit "N/A"; Price := lit "N/A";
     Currency := []; Amount := []; Note := [] |}.

Definition error_record (country msg : str) : PriceRecord :=
  {| Country := country; Plan := lit "ERROR"; Price := msg;
     Currency := []; Amount := []; Note := [] |}.

(** The text before and after the first colon of [s]. *)
Definition before_colon (s : str) : str :=
  match partition_colon s with
  | Some (a, _) => a
  | None => s
  end.

Definition after_colon (s : str) : str :=
  match partition_colon s with
  | Some (_, b) => b
  | None => []
  end.

(** The console line of a finished scrape. *)
Definition success_line (country : str) : str := [0x2705; 0x20] ++ country.
Definition error_line (country msg : str) : str :=
  [0x274C] ++ lit " Error: " ++ country ++ [0x20; 0x2014; 0x20] ++ msg.

Definition say (line : str) (w : World) : World :=
  {| console := console w ++ [line];
     trace := trace w;
     tabs_opened := tabs_opened w |}.

Section ScraperVocabulary.
Context `{DocumentView}.

(** The list items of the pricing section of a document: those of the first
    [ul] after the first [h3] whose string contains Pricing; none when
    the heading or the list is missing. *)
Definition pricing_items (soup : Soup) : list Tag :=
  match find soup (lit "h3") pricing_filter with
  | Some header =>
      match find_next header (lit "ul") with
      | Some ul => find_all ul (lit "li")
      | None => []
      end
  | None => []
  end.

Definition has_colon (li : Tag) : bool := contains (lit ":") (text li).

(** The record made from a list item with a colon. *)
Definition row_of (country : str) (li : Tag) : PriceRecord :=
  let price := strip (after_colon (strip (text li))) in
  {| Country := country;
     Plan := strip (before_colon (strip (text li)));
     Price := price;
     Currency := (extract_price_details price).1.1;
     Amount := (extract_price_details price).1.2;
     Note := (extract_price_details price).2 |}.

(** The records of a rendered page. *)
Definition records_of (country html : str) : list PriceRecord :=
  match List.filter has_colon (pricing_items (BeautifulSoup html (lit "html.parser"))) with
  | [] => [na_record country]
  | lis => map (row_of country) lis
  end.

(** What a scrape returns and what it prints; nothing when an exception
    that is not an [Exception] goes through it. *)
Definition scrape_result (country : str) (page : Page) : list PriceRecord :=
  match navigation country page with
  | Return html => records_of country html
  | Raise msg => [error_record country msg]
  | RaiseBase _ => []
  end.

Definition scrape_line (country : str) (page : Page) : str :=
  match navigation country page with
  | Return _ => success_line country
  | Raise msg => error_line country msg
  | RaiseBase _ => []
  end.

(** How a scrape ends. *)
Definition scrape_outcome (country : str) (page : Page)
  : outcome (list PriceRecord) :=
  match navigation country page with
  | RaiseBase msg => RaiseBase msg
  | _ => Return (scrape_result country page)
  end.

End ScraperVocabulary.

(** *** A page and a document to run the scraper on *)

Module Fixture.

(** A document is a heading and the texts of the list items after it. *)
Inductive tag : Type :=
| Heading (title : str) (items : list str)
| ItemList (items : list str)
| Item (t : str).

(** The markup of a document: its heading on the first line and one list
    item on every further line. *)
Fixpoint lines (cur s : str) : list str :=
  match s with
  | [] => [cur]
  | c :: s' => if c =? 0x0A then cur :: lines [] s' else lines (cur ++ [c]) s'
  end.

Definition document : DocumentView := {|
  Soup := list str;
  Tag := tag;
  BeautifulSoup markup _ := lines [] markup;
  find soup _ keep :=
    match soup with
    | title :: items =>
        if keep (Some title) then Some (Heading title items) else None
    | [] => None
    end;
  find_next t _ :=
    match t with
    | Heading _ items => Some (ItemList items)
    | _ => None
    end;
  find_all t _ :=
    match t with
    | ItemList items => map Item items
    | _ => []
    end;
  text t :=
    match t with
    | Heading title _ => title
    | ItemList items => concat items
    | Item s => s
    end
|}.

Definition input_box : InputBox := {|
  fill _ := Return tt;
  type _ := Return tt;
  press _ := Return tt
|}.

(** A page on which every call returns and that renders [html]. *)
Definition page (html : str) : Page := {|
  goto _ _ := Return tt;
  wait_for_timeout _ := Return tt;
  click _ _ := Return tt;
  wait_for_selector _ := Return input_box;
  content := Return html
|}.

(** The same page without a cookie banner: the click on its button times
    out. *)
Definition page_without_banner (html : str) : Page := {|
  goto _ _ := Return tt;
  wait_for_timeout _ := Return tt;
  click selector _ :=
    if bool_decide (selector = cookie_button)
    then Raise (lit "Timeout 3000ms exceeded.")
    else Return tt;
  wait_for_selector _ := Return input_box;
  content := Return html
|}.

(** A page whose task is cancelled while it waits for the navigation:
    [goto] raises [asyncio.CancelledError], whose message is empty. *)
Definition page_cancelled : Page := {|
  goto _ _ := RaiseBase [];
  wait_for_timeout _ := Return tt;
  click _ _ := Return tt;
  wait_for_selector _ := Return input_box;
  content := Return []
|}.

(** A page whose navigation times out. *)
Definition page_unreachable : Page := {|
  goto _ _ := Raise (lit "Timeout 60000ms exceeded.");
  wait_for_timeout _ := Return tt;
  click _ _ := Return tt;
  wait_for_selector _ := Return input_box;
  content := Return []
|}.

Definition canada_html : str :=
  lit "Pricing (Canadian Dollar)" ++ [0x0A]
  ++ lit "Basic: Free" ++ [0x0A]
  ++ lit "Standard: $16.49/month" ++ [0x0A]
  ++ lit "no price here".


Definition start : World := {| console := []; trace := []; tabs_opened := 0 |}.

(** Twelve countries, named A to L. *)
Definition twelve : list str := map (fun k => [0x41 + N.of_nat k]) (seq 0 12).

(** The event loop completes the fourth task of a batch first, then the
    second, then the others. *)
Definition fourth_first (_ : nat) : list nat := [3; 1]%nat.

Definition free_item : tag := Item (lit "Basic: Free").
Definition standard_item : tag := Item (lit "Standard: $16.49/month").

Definition free_row : PriceRecord :=
  {| Country := lit "Canada"; Plan := lit "Basic"; Price := lit "Free";
     Currency := lit "Unknown"; Amount := []; Note := lit "Free" |}.

Definition standard_row : PriceRecord :=
  {| Country := lit "Canada"; Plan := lit "Standard";
     Price := lit "$16.49/month";
     Currency := lit "$"; Amount := lit "16.49"; Note := [] |}.

(** The browser of the end-to-end scenario of a run over Canada and
    Wakanda: the second tab never loads. *)
Definition browser (k : nat) : Page :=
  match k with
  | 0%nat => page canada_html
  | _ => page_unreachable
  end.

(** The same browser when the task of the second tab is cancelled. *)
Definition browser_cancelled (k : nat) : Page :=
  match k with
  | 1%nat => page_cancelled
  | _ => browser k
  end.

End Fixture.

(** *** Vocabulary for the batches *)

(** The batches that the loop of [main] takes from the country list. *)
Definition batches {A} (countries : list A) : list (list A) :=
  map (fun i => slice countries i (i + batch_size))
      (range_step (length countries) batch_size).

Definition event_tab (e : Event) : nat :=
  match e with
  | TabOpened t | ScrapeStarted t | ScrapeFinished t | TabClosed t => t
  end.

(** The batch that an event belongs to, when the tabs of the batches are
    numbered from [first]. *)
Definition batch_of (first : nat) (e : Event) : nat :=
  ((event_tab e - first) / batch_size)%nat.

(** The task ends in [o] from every world, and neither opens a tab nor
    leaves a browser event. *)
Definition settles {A} (t : Task A) (o : outcome A) : Prop :=
  forall w, exists w',
    task_run t w = (o, w')
    /\ trace w' = trace w
    /\ tabs_opened w' = tabs_opened w.

(** The event that the task at position [i] of a [gather] has finished. *)
Definition finished {A} (tasks : list (Task A)) (i : nat) : Event :=
  ScrapeFinished (default 0%nat (task_tab <$> tasks !! i)).

(** The events of one batch of [size] tabs numbered from [first]: the tabs
    are opened, the scrapes are started, they finish in some order, the
    tabs are closed. *)
Definition batch_segment (first size : nat) (seg : list Event) : Prop :=
  exists fin,
    seg = map TabOpened (seq first size)
          ++ map ScrapeStarted (seq first size)
          ++ fin
          ++ map TabClosed (seq first size)
    /\ fin ≡ₚ map ScrapeFinished (seq first size).

Section OrchestratorVocabulary.
Context `{DocumentView}.
Variable browser_tab : nat -> Page.

(** The records of each country of a list, the first one scraped in the
    tab number [first], the next one in the next tab, and so on. *)
Fixpoint scrape_from (first : nat) (countries : list str)
  : list (list PriceRecord) :=
  match countries with
  | [] => []
  | c :: cs => scrape_result c (browser_tab first) :: scrape_from (S first) cs
  end.

Fixpoint tasks_from (first : nat) (countries : list str)
  : list (Task (list PriceRecord)) :=
  match countries with
  | [] => []
  | c :: cs =>
      {| task_tab := first;
         task_run := process_country c (browser_tab first) |}
      :: tasks_from (S first) cs
  end.

Definition tabs_from (first n : nat) : list Tab :=
  map (fun k => {| tab_id := k; tab_page := browser_tab k |}) (seq first n).

(** How the scrapes of the countries end, as in [scrape_from]. *)
Fixpoint outcomes_from (first : nat) (countries : list str)
  : list (outcome (list PriceRecord)) :=
  match countries with
  | [] => []
  | c :: cs =>
      scrape_outcome c (browser_tab first) :: outcomes_from (S first) cs
  end.

(** No guarded call of the scrapes of the countries raises an exception
    that is not an [Exception]. *)
Definition no_escape (first : nat) (countries : list str) : Prop :=
  forall j c msg,
    countries !! j = Some c ->
    navigation c (browser_tab (first + j)) <> RaiseBase msg.

End OrchestratorVocabulary.

(** *** Further vocabulary *)

(** Two pages that answer every call alike, except perhaps the click on the
    cookie button. *)
Definition same_but_cookie_click (p p' : Page) : Prop :=
  (forall url timeout, goto p url timeout = goto p' url timeout)
  /\ (forall timeout, wait_for_timeout p timeout = wait_for_timeout p' timeout)
  /\ (forall selector timeout,
        selector <> cookie_button ->
        click p selector timeout = click p' selector timeout)
  /\ (forall selector, wait_for_selector p selector = wait_for_selector p' selector)
  /\ content p = content p'.

(** The number of tabs that are open after the events [l]: the tabs opened
    less the tabs closed. *)
Fixpoint open_tabs (l : list Event) : Z :=
  match l with
  | [] => 0%Z
  | TabOpened _ :: l' => (1 + open_tabs l')%Z
  | TabClosed _ :: l' => (open_tabs l' - 1)%Z
  | _ :: l' => open_tabs l'
  end.

(** At every moment of [l] the number of open tabs lies between [lo] and
    [hi]. *)
Definition tabs_within (lo hi : Z) (l : list Event) : Prop :=
  forall p, p `prefix_of` l -> (lo <= open_tabs p <= hi)%Z.

(** An event that neither opens nor closes a tab. *)
Definition scrape_event (e : Event) : Prop :=
  match e with
  | ScrapeStarted _ | ScrapeFinished _ => True
  | TabOpened _ | TabClosed _ => False
  end.

(** The tab [t] has been opened, its scrape started and finished, and it
    has been closed in [evs]. *)
Definition tab_done (evs : list Event) (t : nat) : Prop :=
  TabOpened t ∈ evs /\ ScrapeStarted t ∈ evs
  /\ ScrapeFinished t ∈ evs /\ TabClosed t ∈ evs.

(** [[entry["label"] for entry in countries_data]] (line 106 of [main]).
    An entry is a Python dict; reading a key that it does not have raises
    [KeyError], whose message is the key in quotes. *)
Fixpoint countries_of {V} (countries_data : list (gmap string V))
  : outcome (list V) :=
  match countries_data with
  | [] => Return []
  | entry :: rest =>
      match entry !! "label"%string with
      | Some label => labels ← countries_of rest; mret (label :: labels)
      | None => Raise (lit "'label'")
      end
  end.

(** ** Facts about strings *)

Ltac btrue :=
  repeat match goal with
  | H : (_ && _) = true |- _ => apply andb_true_iff in H; destruct H
  | H : (_ =? _) = true |- _ => apply N.eqb_eq in H
  | H : (_ <=? _) = true |- _ => apply N.leb_le in H
  | H : (_ <? _) = true |- _ => apply N.ltb_lt in H
  | H : (_ =? _) = false |- _ => apply N.eqb_neq in H
  | H : (_ <=? _) = false |- _ => apply N.leb_gt in H
  | H : negb _ = true |- _ => apply negb_true_iff in H
  | H : negb _ = false |- _ => apply negb_false_iff in H
  end.

Lemma take_drop_while f s : take_while f s ++ drop_while f s = s.
Proof.
  induction s as [|c s IH]; simpl; [reflexivity|].
  destruct (f c); simpl; [now rewrite IH | reflexivity].
Qed.

Lemma take_while_all f s : Forall (fun c => f c = true) (take_while f s).
Proof.
  induction s as [|c s IH]; simpl; [constructor|].
  destruct (f c) eqn:E; [constructor; assumption | constructor].
Qed.

Lemma drop_while_head f s :
  match drop_while f s with [] => True | c :: _ => f c = false end.
Proof.
  induction s as [|c s IH]; simpl; [exact I|].
  destruct (f c) eqn:E; [exact IH | exact E].
Qed.

Lemma drop_while_all f l s :
  Forall (fun c => f c = true) l -> drop_while f (l ++ s) = drop_while f s.
Proof.
  induction 1 as [|c l Hc _ IH]; simpl; [reflexivity|].
  now rewrite Hc.
Qed.

Lemma drop_while_all_nil f l :
  Forall (fun c => f c = true) l -> drop_while f l = [].
Proof.
  intros Hl. rewrite <- (app_nil_r l). now rewrite drop_while_all.
Qed.

Lemma drop_while_stop f s :
  match s with [] => True | c :: _ => f c = false end -> drop_while f s = s.
Proof. destruct s as [|c s]; simpl; [reflexivity|]. now intros ->. Qed.

Lemma drop_while_idem f s : drop_while f (drop_while f s) = drop_while f s.
Proof. apply drop_while_stop, drop_while_head. Qed.

Lemma drop_while_snoc f s c :
  drop_while f (s ++ [c]) =
  match drop_while f s with
  | [] => if f c then [] else [c]
  | r => r ++ [c]
  end.
Proof.
  induction s as [|a s IH]; simpl; [reflexivity|].
  destruct (f a); [exact IH | reflexivity].
Qed.

(** [rstrip] peels the string from its right end. *)
Lemma rstrip_cons c s :
  rstrip (c :: s) =
  match rstrip s with
  | [] => if isspace c then [] else [c]
  | r => c :: r
  end.
Proof.
  unfold rstrip. simpl rev. rewrite drop_while_snoc.
  destruct (drop_while isspace (rev s)) as [|a r]; simpl.
  - destruct (isspace c); reflexivity.
  - rewrite rev_app_distr. simpl.
    destruct (rev r ++ [a]) eqn:E; [|reflexivity].
    now apply app_eq_nil in E as [_ ?].
Qed.

Lemma rstrip_nil : rstrip [] = [].
Proof. reflexivity. Qed.

Lemma rstrip_all s : Forall (fun c => isspace c = true) s -> rstrip s = [].
Proof.
  induction 1 as [|c s Hc _ IH]; [reflexivity|].
  now rewrite rstrip_cons, IH, Hc.
Qed.

Lemma rstrip_app_space s r :
  Forall (fun c => isspace c = true) r -> rstrip (s ++ r) = rstrip s.
Proof.
  intros Hr. induction s as [|c s IH]; simpl.
  - now rewrite rstrip_all.
  - now rewrite !rstrip_cons, IH.
Qed.

Lemma rstrip_decompose s :
  exists r, s = rstrip s ++ r /\ Forall (fun c => isspace c = true) r.
Proof.
  induction s as [|c s (r & Hs & Hr)].
  - exists []. split; [reflexivity | constructor].
  - rewrite rstrip_cons.
    destruct (rstrip s) as [|a t] eqn:E.
    + destruct (isspace c) eqn:Ec.
      * exists (c :: r). simpl in *. split; [now rewrite <- Hs | now constructor].
      * exists r. simpl in *. split; [now rewrite <- Hs | assumption].
    + exists r. split; [|assumption]. simpl. f_equal. exact Hs.
Qed.

Lemma rstrip_idem s : rstrip (rstrip s) = rstrip s.
Proof.
  unfold rstrip. now rewrite rev_involutive, drop_while_idem.
Qed.

Lemma rstrip_head c s : isspace c = false -> exists t, rstrip (c :: s) = c :: t.
Proof.
  intros Hc. rewrite rstrip_cons, Hc.
  destruct (rstrip s); eauto.
Qed.

Lemma strip_trimmed s : trimmed (strip s).
Proof.
  unfold trimmed, strip. split; [|apply rstrip_idem].
  unfold lstrip at 1.
  pose proof (drop_while_head isspace s) as Hh. fold (lstrip s) in Hh.
  destruct (lstrip s) as [|c u]; [reflexivity|].
  destruct (rstrip_head c u Hh) as [t ->]. simpl. now rewrite Hh.
Qed.

Lemma strip_decompose s :
  exists l r,
    s = l ++ strip s ++ r
    /\ Forall (fun c => isspace c = true) l
    /\ Forall (fun c => isspace c = true) r.
Proof.
  destruct (rstrip_decompose (lstrip s)) as (r & Hs & Hr).
  exists (take_while isspace s), r. split; [|split].
  - unfold strip. rewrite <- Hs. unfold lstrip. now rewrite take_drop_while.
  - apply take_while_all.
  - assumption.
Qed.

Lemma strip_unique l t r :
  Forall (fun c => isspace c = true) l ->
  Forall (fun c => isspace c = true) r ->
  trimmed t ->
  strip (l ++ t ++ r) = t.
Proof.
  intros Hl Hr [Ht1 Ht2]. unfold strip, lstrip.
  rewrite drop_while_all by assumption.
  destruct t as [|c t].
  - simpl. now rewrite drop_while_all_nil.
  - assert (Hc : isspace c = false).
    { pose proof (drop_while_head isspace (c :: t)) as Hh.
      unfold lstrip in Ht1. rewrite Ht1 in Hh. exact Hh. }
    simpl. rewrite Hc.
    change (c :: t ++ r) with ((c :: t) ++ r).
    now rewrite rstrip_app_space.
Qed.

Lemma strip_idem s : strip (strip s) = strip s.
Proof.
  pose proof (strip_unique [] (strip s) []) as Hu.
  simpl in Hu. rewrite app_nil_r in Hu.
  apply Hu; [constructor | constructor | apply strip_trimmed].
Qed.

Lemma strip_pad l s r :
  Forall (fun c => isspace c = true) l ->
  Forall (fun c => isspace c = true) r ->
  strip (l ++ s ++ r) = strip s.
Proof.
  intros Hl Hr.
  destruct (strip_decompose s) as (l' & r' & Hs & Hl' & Hr').
  rewrite Hs at 1.
  replace (l ++ (l' ++ strip s ++ r') ++ r)
    with ((l ++ l') ++ strip s ++ (r' ++ r))
    by now rewrite <- !app_assoc.
  apply strip_unique; [now apply Forall_app | now apply Forall_app |].
  apply strip_trimmed.
Qed.

(** *** Case-insensitive words *)

Lemma month_letters : Forall lower_letter (lit "month").
Proof.
  unfold lower_letter. vm_compute lit.
  repeat (constructor; [lia|]). constructor.
Qed.

Lemma month_plain : Forall plain_letter (0x6D :: lit "onth").
Proof.
  unfold plain_letter, lower_letter. vm_compute lit.
  repeat (constructor; [lia|]). constructor.
Qed.

Lemma match_letter_variant p c :
  lower_letter p -> match_letter p c = true <-> case_variant p c.
Proof.
  unfold lower_letter, match_letter, case_variant. intros Hp. split.
  - intros Hm. apply orb_true_iff in Hm as [Hm|Hm]; btrue; lia.
  - intros [->| ->]; apply orb_true_iff.
    + left. apply N.eqb_refl.
    + right. rewrite !andb_true_iff, !N.leb_le, N.eqb_eq. lia.
Qed.

Lemma match_word_spec p t r :
  Forall lower_letter p ->
  match_word p t = Some r <-> exists w, t = w ++ r /\ Forall2 case_variant p w.
Proof.
  intros Hp. revert t. induction Hp as [|a p Ha Hp IH]; intros t.
  - simpl. split.
    + intros [= ->]. exists []. split; [reflexivity | constructor].
    + intros (w & -> & Hw). inversion Hw. reflexivity.
  - destruct t as [|c t]; simpl.
    + split; [discriminate|].
      intros (w & Ht & Hw). inversion Hw; subst. discriminate.
    + destruct (match_letter a c) eqn:E.
      * rewrite IH. apply match_letter_variant in E; [|assumption]. split.
        -- intros (w & -> & Hw). exists (c :: w). split; [reflexivity|].
           now constructor.
        -- intros (w & Ht & Hw). inversion Hw; subst.
           injection Ht as -> ->. eauto.
      * split; [discriminate|].
        intros (w & Ht & Hw). inversion Hw as [|? c' ? w' Hv Hw']; subst.
        injection Ht as -> ->.
        apply match_letter_variant in Hv; [congruence | assumption].
Qed.

Lemma lower_app a b : lower (a ++ b) = lower a ++ lower b.
Proof. unfold lower. now rewrite map_app, concat_app. Qed.

Lemma lower_char_variant p c :
  lower_letter p -> case_variant p c -> lower_char c = [p].
Proof.
  unfold lower_letter, case_variant, lower_char. intros Hp [->| ->].
  - destruct (N.leb_spec 0x41 p); destruct (N.leb_spec p 0x5A); simpl; try lia.
    all: destruct (N.eqb_spec p 0x130); [lia|].
    all: destruct (N.eqb_spec p 0x212A); [lia | reflexivity].
  - destruct (N.leb_spec 0x41 (p - 32)); destruct (N.leb_spec (p - 32) 0x5A);
      simpl; try lia.
    f_equal. lia.
Qed.

Lemma lower_spells p w :
  Forall lower_letter p -> Forall2 case_variant p w -> lower w = p.
Proof.
  intros Hp Hw. induction Hw as [|a c p w Hac Hw IH]; [reflexivity|].
  inversion Hp; subst.
  change (lower (c :: w)) with (lower_char c ++ lower w).
  rewrite (lower_char_variant a c), IH by assumption. reflexivity.
Qed.

Lemma startswith_prefix p b : startswith p (p ++ b) = true.
Proof.
  induction p as [|a p IH]; simpl; [reflexivity|].
  now rewrite N.eqb_refl, IH.
Qed.

Lemma contains_middle p a b : contains p (a ++ p ++ b) = true.
Proof.
  induction a as [|c a IH].
  - simpl app. destruct (p ++ b) eqn:E; simpl; rewrite <- E;
      now rewrite startswith_prefix.
  - simpl. rewrite IH. apply orb_true_r.
Qed.

Lemma lower_char_head a c :
  plain_letter a ->
  match lower_char c with
  | [x] => x = a -> case_variant a c
  | x :: y :: l => x <> a /\ y <> a /\ l = []
  | [] => False
  end.
Proof.
  unfold plain_letter, lower_letter, lower_char, case_variant.
  intros (Ha & Hi & Hk).
  destruct (N.leb_spec 0x41 c); destruct (N.leb_spec c 0x5A); simpl.
  1: lia.
  all: destruct (N.eqb_spec c 0x130); [repeat split; lia|].
  all: destruct (N.eqb_spec c 0x212A); lia.
Qed.

Lemma startswith_lower p s :
  Forall plain_letter p ->
  startswith p (lower s) = true ->
  exists w post, s = w ++ post /\ Forall2 case_variant p w.
Proof.
  intros Hp. revert s. induction Hp as [|a p Ha Hp IH]; intros s Hs.
  - exists [], s. split; [reflexivity | constructor].
  - destruct s as [|c s]; [discriminate|].
    change (lower (c :: s)) with (lower_char c ++ lower s) in Hs.
    pose proof (lower_char_head a c Ha) as Hc.
    destruct (lower_char c) as [|x [|y l]]; [contradiction| |].
    + simpl in Hs. btrue. destruct (IH s) as (w & post & -> & Hw); [assumption|].
      exists (c :: w), post. split; [reflexivity|]. constructor; auto.
    + simpl in Hs. btrue. destruct Hc as [Hc _]. congruence.
Qed.

Lemma contains_lower a p s :
  Forall plain_letter (a :: p) ->
  contains (a :: p) (lower s) = true ->
  exists pre w post, s = pre ++ w ++ post /\ Forall2 case_variant (a :: p) w.
Proof.
  intros Hp. induction s as [|c s IH]; intros Hs; [discriminate|].
  assert (Hrec : contains (a :: p) (lower s) = true ->
                 exists pre w post,
                   c :: s = pre ++ w ++ post /\ Forall2 case_variant (a :: p) w).
  { intros Hc. destruct (IH Hc) as (pre & w & post & -> & Hw).
    exists (c :: pre), w, post. split; [reflexivity | assumption]. }
  destruct (startswith (a :: p) (lower (c :: s))) eqn:Esw.
  { destruct (startswith_lower _ _ Hp Esw) as (w & post & Hcs & Hw).
    exists [], w, post. split; assumption. }
  change (lower (c :: s)) with (lower_char c ++ lower s) in Hs, Esw.
  inversion Hp as [|? ? Ha _]; subst.
  pose proof (lower_char_head a c Ha) as Hc.
  destruct (lower_char c) as [|x [|y l]]; [contradiction| |].
  - change (contains (a :: p) ([x] ++ lower s))
      with (startswith (a :: p) ([x] ++ lower s) || contains (a :: p) (lower s))
      in Hs.
    rewrite Esw in Hs. auto.
  - destruct Hc as (Hx & Hy & ->). simpl in Hs.
    destruct (N.eqb_spec a x); [congruence|].
    destruct (N.eqb_spec a y); [congruence|].
    simpl in Hs. auto.
Qed.

(** The test of line 14 is the case-insensitive substring test. *)
Lemma month_test s :
  contains (lit "month") (lower s) = true <-> has_month s.
Proof.
  split.
  - intros Hs. change (lit "month") with (0x6D :: lit "onth") in Hs.
    apply contains_lower in Hs; [exact Hs | exact month_plain].
  - intros (pre & w & post & -> & Hw).
    rewrite !lower_app, (lower_spells _ _ month_letters Hw).
    apply contains_middle.
Qed.

(** *** The marker pattern *)

Lemma spells_month_head w :
  spells_month w -> match w with [] => True | c :: _ => isspace c = false end.
Proof.
  unfold spells_month. vm_compute lit. intros Hw.
  inversion Hw as [|? c ? ? Hv _]; subst.
  destruct Hv as [->| ->]; reflexivity.
Qed.

Lemma match_marker_spec s post :
  match_marker s = Some post <-> marker_at [] post s.
Proof.
  unfold match_marker, marker_at. split.
  - destruct s as [|c s]; [discriminate|].
    destruct (N.eqb_spec c slash) as [->|]; [|discriminate].
    intros Hm. apply (match_word_spec _ _ _ month_letters) in Hm as (w & Hd & Hw).
    exists (take_while isspace s), w. split; [|split].
    + simpl. f_equal. rewrite <- Hd. symmetry. apply take_drop_while.
    + apply take_while_all.
    + exact Hw.
  - intros (ws & w & -> & Hws & Hw). cbn [app]. rewrite N.eqb_refl.
    rewrite drop_while_all by assumption.
    rewrite drop_while_stop.
    + apply (match_word_spec _ _ _ month_letters). eauto.
    + pose proof (spells_month_head w Hw) as Hh.
      destruct w; [inversion Hw | exact Hh].
Qed.

Lemma find_marker_eq s :
  find_marker s =
  match match_marker s with
  | Some rest => Some ([], rest)
  | None =>
      match s with
      | [] => None
      | c :: s' =>
          match find_marker s' with
          | Some (pre, rest) => Some (c :: pre, rest)
          | None => None
          end
      end
  end.
Proof. destruct s; reflexivity. Qed.

(** [find_marker] returns an occurrence of the pattern ... *)
Lemma find_marker_sound s pre post :
  find_marker s = Some (pre, post) -> marker_at pre post s.
Proof.
  revert pre post. induction s as [|c s IH]; intros pre post;
    rewrite find_marker_eq.
  - discriminate.
  - destruct (match_marker (c :: s)) as [rest|] eqn:E.
    + intros [= <- <-]. now apply match_marker_spec.
    + destruct (find_marker s) as [[p r]|]; [|discriminate].
      intros [= <- <-]. destruct (IH _ _ eq_refl) as (ws & w & -> & Hws & Hw).
      exists ws, w. split; [reflexivity | split; assumption].
Qed.

(** ... and no occurrence starts before the one it returns. *)
Lemma find_marker_first s pre post :
  marker_at pre post s ->
  exists pre' post',
    find_marker s = Some (pre', post') /\ (length pre' <= length pre)%nat.
Proof.
  revert s. induction pre as [|c pre IH]; intros s Hs.
  - apply match_marker_spec in Hs. rewrite find_marker_eq, Hs.
    exists [], post. split; [reflexivity | lia].
  - destruct Hs as (ws & w & -> & Hws & Hw).
    change ((c :: pre) ++ [slash] ++ ws ++ w ++ post)
      with (c :: (pre ++ [slash] ++ ws ++ w ++ post)).
    rewrite find_marker_eq.
    destruct (match_marker (c :: (pre ++ [slash] ++ ws ++ w ++ post))).
    + eexists [], _. split; [reflexivity | simpl; lia].
    + destruct (IH (pre ++ [slash] ++ ws ++ w ++ post)) as (p' & r' & E & Hl).
      { exists ws, w. split; [reflexivity | split; assumption]. }
      rewrite E.
      exists (c :: p'), r'. split; [reflexivity | simpl; lia].
Qed.

Lemma find_marker_none s : find_marker s = None <-> ~ has_marker s.
Proof.
  split.
  - intros Hn (pre & post & Hm).
    apply find_marker_first in Hm as (? & ? & E & _). congruence.
  - intros Hn. destruct (find_marker s) as [[pre post]|] eqn:E; [|reflexivity].
    exfalso. apply Hn. exists pre, post. now apply find_marker_sound.
Qed.

(** An occurrence in the trimmed text is an occurrence in the text. *)
Lemma has_marker_strip s : has_marker (strip s) -> has_marker s.
Proof.
  intros (pre & post & ws & w & Hs & Hws & Hw).
  destruct (strip_decompose s) as (l & r & Hd & _ & _).
  exists (l ++ pre), (post ++ r), ws, w. split; [|split; assumption].
  rewrite Hd at 1. rewrite Hs. now rewrite <- !app_assoc.
Qed.

(** The two cases of [re.split]. *)
Lemma re_split_month_eq s :
  re_split_month s =
  match find_marker s with
  | Some (pre, rest) => pre :: re_split_month rest
  | None => [s]
  end.
Proof.
  funelim (re_split_month s);
    match goal with E : find_marker _ = _ |- _ => now rewrite E end.
Qed.

(** *** Searching a run of a character class *)

Lemma re_search_run_none cls s :
  re_search_run cls s = None <-> Forall (fun c => cls c = false) s.
Proof.
  induction s as [|c s IH]; simpl.
  - split; [constructor | reflexivity].
  - destruct (cls c) eqn:E.
    + split; [discriminate|]. intros Hf. inversion Hf; congruence.
    + rewrite IH. split; [now constructor | now inversion 1].
Qed.

Lemma re_search_run_some cls s run :
  re_search_run cls s = Some run <-> first_run cls s run.
Proof.
  unfold first_run. induction s as [|c s IH]; simpl.
  - split; [discriminate|].
    intros (pre & post & Hs & _ & Hne & _). symmetry in Hs.
    apply app_eq_nil in Hs as [_ Hs]. apply app_eq_nil in Hs as [? _].
    contradiction.
  - destruct (cls c) eqn:E.
    + split.
      * intros [= <-]. exists [], (drop_while cls s). split; [|split; [|split; [|split]]].
        -- simpl. now rewrite take_drop_while.
        -- constructor.
        -- discriminate.
        -- constructor; [assumption | apply take_while_all].
        -- apply drop_while_head.
      * intros (pre & post & Hs & Hpre & Hne & Hrun & Hpost).
        destruct pre as [|a pre].
        2:{ injection Hs as <- _. inversion Hpre; congruence. }
        destruct run as [|a run]; [contradiction|].
        injection Hs as <- Hs. f_equal. f_equal.
        inversion Hrun as [|? ? _ Hrun']; subst. clear - Hrun' Hpost.
        induction Hrun' as [|a run Ha _ IH]; simpl.
        -- destruct post as [|b post]; [reflexivity|]. simpl. now rewrite Hpost.
        -- now rewrite Ha, IH.
    + rewrite IH. split.
      * intros (pre & post & -> & Hpre & Hrest).
        exists (c :: pre), post. split; [reflexivity|].
        split; [now constructor | assumption].
      * intros (pre & post & Hs & Hpre & Hne & Hrun & Hpost).
        destruct pre as [|a pre].
        -- destruct run as [|a run]; [contradiction|].
           injection Hs as <- _. inversion Hrun; congruence.
        -- injection Hs as <- ->. inversion Hpre; subst.
           exists pre, post. repeat split; assumption.
Qed.

(** *** The two branches of [extract_price_details] *)

Lemma extract_without_month s :
  truthy s = false \/ contains (lit "month") (lower s) = false ->
  extract_price_details s = (lit "Unknown", [], s).
Proof.
  unfold extract_price_details. intros [-> | ->]; simpl; [reflexivity|].
  now rewrite orb_true_r.
Qed.

Lemma extract_with_month s :
  truthy s = true ->
  contains (lit "month") (lower s) = true ->
  extract_price_details s =
  (currency_token (price_segment s), amount_token (price_segment s),
   note_segment s).
Proof.
  intros Ht Hm.
  unfold extract_price_details, price_segment, note_segment.
  unfold currency_token, amount_token.
  rewrite Ht, Hm. cbn [negb orb].
  rewrite (re_split_month_eq (strip s)).
  destruct (find_marker (strip s)) as [[pre post]|].
  - rewrite (re_split_month_eq post).
    destruct (find_marker post) as [[mid rest]|]; reflexivity.
  - reflexivity.
Qed.

(** *** The first colon *)

Lemma contains_colon t : contains (lit ":") t = true <-> In colon t.
Proof.
  change (lit ":") with [colon].
  induction t as [|c t IH]; [split; [discriminate | contradiction]|].
  change (contains [colon] (c :: t))
    with ((colon =? c) && true || contains [colon] t).
  rewrite orb_true_iff, IH, andb_true_r, N.eqb_eq. simpl. intuition congruence.
Qed.

Lemma partition_colon_none t : partition_colon t = None <-> ~ In colon t.
Proof.
  induction t as [|c t IH]; simpl; [tauto|].
  destruct (N.eqb_spec c colon) as [->|Hc].
  - split; [discriminate | tauto].
  - destruct (partition_colon t) as [[a b]|].
    + split; [discriminate|]. intros Hn. exfalso.
      destruct IH as [_ IH]. discriminate IH. tauto.
    + split; [|reflexivity]. intros _ [?|?]; [congruence | tauto].
Qed.

Lemma partition_colon_app l t r a b :
  Forall (fun c => isspace c = true) l ->
  partition_colon t = Some (a, b) ->
  partition_colon (l ++ t ++ r) = Some (l ++ a, b ++ r).
Proof.
  intros Hl Ht. induction Hl as [|c l Hc _ IH]; simpl.
  - revert a Ht. induction t as [|c t IH]; intros a Ht; [discriminate|].
    simpl in *. destruct (c =? colon); [now injection Ht as <- <-|].
    destruct (partition_colon t) as [[a' b']|]; [|discriminate].
    injection Ht as <- <-. now rewrite (IH a' eq_refl).
  - destruct (N.eqb_spec c colon) as [->|_]; [discriminate|].
    now rewrite IH.
Qed.

Lemma colon_in_strip t : In colon t -> In colon (strip t).
Proof.
  destruct (strip_decompose t) as (l & r & Ht & Hl & Hr).
  rewrite Ht at 1. rewrite !in_app_iff.
  rewrite Forall_forall in Hl, Hr.
  intros [Hc|[Hc|Hc]]; [|assumption|].
  - apply list_elem_of_In, Hl in Hc. discriminate.
  - apply list_elem_of_In, Hr in Hc. discriminate.
Qed.

(** Trimming the list item before the split or not gives the same plan and
    the same price text. *)
Lemma strip_around_colon t :
  strip (before_colon (strip t)) = strip (before_colon t)
  /\ strip (after_colon (strip t)) = strip (after_colon t).
Proof.
  unfold before_colon, after_colon.
  destruct (strip_decompose t) as (l & r & Ht & Hl & Hr).
  destruct (partition_colon (strip t)) as [[a b]|] eqn:E.
  - assert (Ep : partition_colon t = Some (l ++ a, b ++ r)).
    { rewrite Ht at 1. now apply partition_colon_app. }
    rewrite Ep. split.
    + symmetry. rewrite <- (app_nil_r (l ++ a)), <- app_assoc.
      apply strip_pad; [assumption | constructor].
    + symmetry. apply (strip_pad [] b r); [constructor | assumption].
  - assert (En : partition_colon t = None).
    { apply partition_colon_none. intros Hc.
      apply colon_in_strip in Hc. now apply partition_colon_none in E. }
    rewrite En. split; [apply strip_idem | reflexivity].
Qed.

(** *** Running [process_country] *)

Section ScraperFacts.
Context `{DocumentView}.

Lemma li_row_run country results li w :
  li_row country results li w =
  (Return (results ++ if has_colon li then [row_of country li] else []), w).
Proof.
  unfold li_row, has_colon, row_of, before_colon, after_colon, split_colon_1.
  destruct (contains (lit ":") (text li)) eqn:Ec; [|now rewrite app_nil_r].
  apply contains_colon, colon_in_strip in Ec.
  destruct (partition_colon (strip (text li))) as [[plan price_text]|] eqn:E.
  - destruct (extract_price_details (strip price_text)) as [[currency amount] note].
    reflexivity.
  - apply partition_colon_none in E. contradiction.
Qed.

Lemma li_rows_run country lis acc w :
  for_each (li_row country) lis acc w =
  (Return (acc ++ map (row_of country) (List.filter has_colon lis)), w).
Proof.
  revert acc. induction lis as [|li lis IH]; intros acc; simpl.
  - now rewrite app_nil_r.
  - unfold mbind, IO_bind. rewrite li_row_run, IH.
    destruct (has_colon li); simpl; now rewrite <- app_assoc.
Qed.

(** What the guarded block does on every page. *)
Lemma process_country_try_run country page w :
  process_country_try country page w =
  match navigation country page with
  | Return html =>
      (Return (records_of country html), say (success_line country) w)
  | Raise msg => (Raise msg, w)
  | RaiseBase msg => (RaiseBase msg, w)
  end.
Proof.
  unfold process_country_try, navigation, try_except_all.
  unfold mbind, IO_bind, outcome_bind, await.
  destruct (goto page help_url 60000) as [[]|msg|msg]; [|reflexivity..].
  destruct (wait_for_timeout page 2000) as [[]|msg|msg]; [|reflexivity..].
  destruct (click page cookie_button 3000) as [[]|msg0|msg0].
  all: cbn [mret IO_ret].
  all: destruct (click page (lit "div.css-hlgwow") 5000) as [[]|msg|msg];
         [|reflexivity..].
  all: destruct (wait_for_selector page text_input) as [input_box|msg|msg];
         [|reflexivity..].
  all: destruct (fill input_box []) as [[]|msg|msg]; [|reflexivity..].
  all: destruct (type input_box country) as [[]|msg|msg]; [|reflexivity..].
  all: destruct (press input_box (lit "Enter")) as [[]|msg|msg]; [|reflexivity..].
  all: destruct (wait_for_timeout page 3000) as [[]|msg|msg]; [|reflexivity..].
  all: destruct (content page) as [html|msg|msg]; [|reflexivity..].
  all: unfold records_of, pricing_items.
  all: destruct (find (BeautifulSoup html (lit "html.parser")) (lit "h3") pricing_filter)
         as [header|]; [|reflexivity].
  all: destruct (find_next header (lit "ul")) as [ul|]; [|reflexivity].
  all: rewrite li_rows_run; cbn [app].
  all: destruct (map (row_of country) (List.filter has_colon (find_all ul (lit "li"))))
         as [|r rs] eqn:E.
  all: destruct (List.filter has_colon (find_all ul (lit "li"))) as [|li lis];
         try discriminate; try reflexivity.
  all: cbn [negb]; unfold mret, IO_ret; rewrite <- E; reflexivity.
Qed.

(** What [process_country] does on every page: the navigation decides the
    records and the console line, and an exception that is not an
    [Exception] goes through. *)
Lemma process_country_run country page w :
  process_country country page w =
  match navigation country page with
  | RaiseBase msg => (RaiseBase msg, w)
  | _ => (Return (scrape_result country page),
          say (scrape_line country page) w)
  end.
Proof.
  unfold process_country, try_except, scrape_result, scrape_line.
  rewrite process_country_try_run.
  destruct (navigation country page); reflexivity.
Qed.

Lemma process_country_returns country page w rs w' :
  process_country country page w = (Return rs, w') ->
  rs = scrape_result country page
  /\ w' = say (scrape_line country page) w
  /\ forall msg, navigation country page <> RaiseBase msg.
Proof.
  rewrite process_country_run.
  destruct (navigation country page); intros [= <- <-]; auto.
Qed.

End ScraperFacts.

(** ** The price parser *)

Example extract_dollar :
  extract_price_details (lit "$15.49/month") = (lit "$", lit "15.49", []).
Proof. vm_compute. reflexivity. Qed.

Example extract_euro :
  extract_price_details (0x20AC :: lit "13,99 / Month for new members")
  = ([0x20AC], lit "1399", lit "for new members").
Proof. vm_compute. reflexivity. Qed.

Lemma has_month_truthy s : has_month s -> truthy s = true.
Proof.
  intros (pre & w & post & -> & Hw).
  inversion Hw; subst. destruct pre; reflexivity.
Qed.

Lemma remove_commas_no_comma s : comma ∉ remove_commas s.
Proof.
  unfold remove_commas. intros Hc.
  apply list_elem_of_filter in Hc as [Hc _]. now apply Hc.
Qed.

Lemma amount_no_comma price_text :
  comma ∉ (extract_price_details price_text).1.2.
Proof.
  unfold extract_price_details.
  destruct (negb (truthy price_text)
            || negb (contains (lit "month") (lower price_text))); simpl.
  - apply not_elem_of_nil.
  - destruct (re_search_run number_class _);
      [apply remove_commas_no_comma | apply not_elem_of_nil].
Qed.

(** With a single marker in the text, the note is all that follows it. *)
Lemma note_single_marker price_text pre post :
  has_month price_text ->
  find_marker (strip price_text) = Some (pre, post) ->
  ~ has_marker post ->
  (extract_price_details price_text).2 = after_first_marker price_text.
Proof.
  intros Hm E Hn.
  rewrite extract_with_month;
    [| now apply has_month_truthy | now apply month_test].
  unfold note_segment, after_first_marker. rewrite E.
  apply find_marker_none in Hn. now rewrite Hn.
Qed.

(** C4: a price text that is empty or has no case-insensitive substring
    month is handed back as it is, as the third component of
    ("Unknown", "", text); in particular the empty text gives
    ("Unknown", "", ""). *)
Theorem passthrough_without_month (price_text : str) :
  price_text = [] \/ ~ has_month price_text ->
  extract_price_details price_text = (lit "Unknown", [], price_text).
Proof.
  intros Hs. apply extract_without_month.
  destruct Hs as [-> | Hn]; [left; reflexivity | right].
  destruct (contains (lit "month") (lower price_text)) eqn:E; [|reflexivity].
  apply month_test in E. contradiction.
Qed.

Lemma passthrough_without_month_witness :
  extract_price_details [] = (lit "Unknown", [], [])
  /\ extract_price_details (lit "Free") = (lit "Unknown", [], lit "Free").
Proof.
  split.
  - apply (passthrough_without_month []). left. reflexivity.
  - apply (passthrough_without_month (lit "Free")). right.
    intros Hm. apply month_test in Hm. vm_compute in Hm. discriminate.
Defined.

(** C5: on a price text with two markers the returned note ends at the
    second marker; the text after the first marker is longer.  The price
    segment is the text before the first marker. *)
Theorem note_stops_at_second_marker :
  let price_text := lit "$5/month then $10/month" in
  extract_price_details price_text = (lit "$", lit "5", lit "then $10")
  /\ after_first_marker price_text = lit "then $10/month"
  /\ (extract_price_details price_text).2 <> after_first_marker price_text
  /\ price_segment price_text = lit "$5".
Proof. vm_compute. repeat split. discriminate. Qed.

(** C10: a price text with a case-insensitive month but without the
    pattern slash, spaces, month is not passed through: the note is empty
    and currency and amount are read from the whole trimmed text. *)
Theorem month_without_marker (price_text : str) :
  has_month price_text ->
  ~ has_marker price_text ->
  extract_price_details price_text =
  (currency_token (strip price_text), amount_token (strip price_text), []).
Proof.
  intros Hm Hn.
  rewrite extract_with_month;
    [| now apply has_month_truthy | now apply month_test].
  assert (E : find_marker (strip price_text) = None).
  { apply find_marker_none. intros Hs. now apply Hn, has_marker_strip. }
  unfold price_segment, note_segment. rewrite E, strip_idem. reflexivity.
Qed.

Lemma month_without_marker_witness :
  has_month (lit "15.49 per month")
  /\ ~ has_marker (lit "15.49 per month")
  /\ extract_price_details (lit "15.49 per month")
     = (lit "per", lit "15.49", []).
Proof.
  assert (Hm : has_month (lit "15.49 per month")).
  { apply month_test. vm_compute. reflexivity. }
  assert (Hn : ~ has_marker (lit "15.49 per month")).
  { apply find_marker_none. vm_compute. reflexivity. }
  split; [exact Hm | split; [exact Hn|]].
  rewrite (month_without_marker (lit "15.49 per month") Hm Hn).
  vm_compute. reflexivity.
Defined.

(** ** The records of a scrape *)

Section ScraperClaims.
Context `{DocumentView}.

Lemma records_of_nonempty country html : records_of country html <> [].
Proof.
  unfold records_of.
  destruct (List.filter has_colon _) as [|li lis]; discriminate.
Qed.

Lemma scrape_result_nonempty country page :
  (forall msg, navigation country page <> RaiseBase msg) ->
  scrape_result country page <> [].
Proof.
  unfold scrape_result. intros Hsafe.
  destruct (navigation country page) as [html|msg|msg];
    [apply records_of_nonempty | discriminate | now destruct (Hsafe msg)].
Qed.

Lemma records_of_cases country html r :
  r ∈ records_of country html ->
  r = na_record country
  \/ exists li,
       li ∈ pricing_items (BeautifulSoup html (lit "html.parser"))
       /\ has_colon li = true /\ r = row_of country li.
Proof.
  unfold records_of.
  destruct (List.filter has_colon _) as [|li lis] eqn:E.
  - intros Hr. left. now apply list_elem_of_singleton in Hr.
  - rewrite <- E. intros Hr. right.
    apply list_elem_of_fmap in Hr as (li' & -> & Hli).
    apply list_elem_of_In, filter_In in Hli as [Hli Hc].
    exists li'. split; [now apply list_elem_of_In | now split].
Qed.

Lemma scrape_result_cases country page r :
  r ∈ scrape_result country page ->
  (exists msg, navigation country page = Raise msg /\ r = error_record country msg)
  \/ (exists html, navigation country page = Return html
                   /\ r ∈ records_of country html).
Proof.
  unfold scrape_result. destruct (navigation country page) as [html|msg|msg].
  - right. eauto.
  - intros Hr. apply list_elem_of_singleton in Hr. left. eauto.
  - intros Hr. now apply elem_of_nil in Hr.
Qed.



(** C6 as amended: for a price text with month, the amount is the first run
    of digits, commas and periods of the price segment with the commas
    removed, and it is empty when the segment has no digit, comma or
    period; no amount, and no Amount field of a record, holds a comma. *)
Theorem amount_is_first_number_run :
  (forall price_text,
     has_month price_text ->
     (forall run,
        first_run number_class (price_segment price_text) run ->
        (extract_price_details price_text).1.2 = remove_commas run)
     /\ (Forall (fun c => number_class c = false) (price_segment price_text) ->
         (extract_price_details price_text).1.2 = []))
  /\ (forall price_text, comma ∉ (extract_price_details price_text).1.2)
  /\ (forall country page w rs w',
        process_country country page w = (Return rs, w') ->
        forall r, r ∈ rs -> comma ∉ Amount r).
Proof.
  split; [|split].
  - intros price_text Hm.
    rewrite extract_with_month;
      [| now apply has_month_truthy | now apply month_test].
    unfold amount_token. simpl. split.
    + intros run Hrun. apply re_search_run_some in Hrun. now rewrite Hrun.
    + intros Hnone. apply re_search_run_none in Hnone. now rewrite Hnone.
  - apply amount_no_comma.
  - intros country page w rs w' Hrun0.
    apply process_country_returns in Hrun0 as (-> & _ & _). intros r Hr.
    apply scrape_result_cases in Hr as [(msg & _ & ->)|(html & _ & Hr)].
    + apply not_elem_of_nil.
    + apply records_of_cases in Hr as [->|(li & _ & _ & ->)].
      * apply not_elem_of_nil.
      * apply amount_no_comma.
Qed.

(** C7 as amended: the Currency field of a record is "Unknown" only when
    its price text is empty or has no case-insensitive month, or when the
    price segment has no currency token, or when the first currency token
    is the word Unknown itself. *)
Theorem unknown_currency_cases (country : str) (page : Page) (w w' : World)
    (rs : list PriceRecord) (r : PriceRecord) :
  process_country country page w = (Return rs, w') ->
  r ∈ rs ->
  Currency r = lit "Unknown" ->
  Price r = []
  \/ ~ has_month (Price r)
  \/ Forall (fun c => currency_class c = false) (price_segment (Price r))
  \/ first_run currency_class (price_segment (Price r)) (lit "Unknown").
Proof.
  intros Hrun0. apply process_country_returns in Hrun0 as (-> & _ & _).
  intros Hr Hcur.
  apply scrape_result_cases in Hr as [(msg & _ & ->)|(html & _ & Hr)];
    [discriminate|].
  apply records_of_cases in Hr as [->|(li & _ & _ & ->)]; [discriminate|].
  simpl in *. set (price := strip (after_colon (strip (text li)))) in *.
  destruct price as [|c price'] eqn:Ep; [now left|]. rewrite <- Ep in *.
  right. destruct (contains (lit "month") (lower price)) eqn:Em.
  - right. rewrite extract_with_month in Hcur; [| now rewrite Ep | assumption].
    unfold currency_token in Hcur. simpl in Hcur.
    destruct (re_search_run currency_class (price_segment price)) as [g|] eqn:E.
    + right. apply re_search_run_some. now rewrite E, Hcur.
    + left. now apply re_search_run_none.
  - left. intros Hm. apply month_test in Hm. congruence.
Qed.

(** C9 as amended: the Price field of a record made from a list item is
    the text after the first colon of the item, with the white space at
    both ends removed. *)
Theorem price_is_trimmed_text_after_colon (country : str) (page : Page)
    (w w' : World) (rs : list PriceRecord) (html : str) (r : PriceRecord) :
  process_country country page w = (Return rs, w') ->
  navigation country page = Return html ->
  r ∈ rs ->
  r = na_record country
  \/ exists li,
       li ∈ pricing_items (BeautifulSoup html (lit "html.parser"))
       /\ In colon (text li)
       /\ Price r = strip (after_colon (text li)).
Proof.
  intros Hrun0. apply process_country_returns in Hrun0 as (-> & _ & _).
  intros Hnav Hr.
  unfold scrape_result in Hr. rewrite Hnav in Hr.
  apply records_of_cases in Hr as [->|(li & Hli & Hc & ->)]; [now left|].
  right. exists li. split; [assumption|]. split.
  - now apply contains_colon.
  - simpl. apply strip_around_colon.
Qed.

End ScraperClaims.

(** ** The scraper on concrete pages *)

Lemma canada_scrape :
  @process_country Fixture.document (lit "Canada")
    (Fixture.page Fixture.canada_html) Fixture.start
  = (Return [Fixture.free_row; Fixture.standard_row],
     say (success_line (lit "Canada")) Fixture.start).
Proof. vm_compute. reflexivity. Qed.

Lemma canada_navigation :
  navigation (lit "Canada") (Fixture.page Fixture.canada_html)
  = Return Fixture.canada_html.
Proof. reflexivity. Qed.





(** C6 as stated fails: a price segment without a digit gives an amount
    that is not empty. *)
Lemma amount_without_digit_counterexample :
  let price_text := lit "Rs./month" in
  has_month price_text
  /\ price_segment price_text = lit "Rs."
  /\ Forall (fun c => isdecimal c = false) (price_segment price_text)
  /\ (extract_price_details price_text).1.2 = lit "."
  /\ (extract_price_details price_text).1.2 <> [].
Proof.
  assert (Hseg : price_segment (lit "Rs./month") = lit "Rs.").
  { vm_compute. reflexivity. }
  split; [apply month_test; vm_compute; reflexivity|].
  split; [exact Hseg|].
  split.
  { cbv zeta. rewrite Hseg. vm_compute lit.
    repeat (constructor; [vm_compute; reflexivity|]). constructor. }
  split; [vm_compute; reflexivity | vm_compute; discriminate].
Qed.

Lemma amount_is_first_number_run_witness :
  has_month (lit "$1,299.00/month")
  /\ first_run number_class (price_segment (lit "$1,299.00/month"))
       (lit "1,299.00")
  /\ (extract_price_details (lit "$1,299.00/month")).1.2 = lit "1299.00"
  /\ comma ∉ Amount Fixture.standard_row.
Proof.
  assert (Hm : has_month (lit "$1,299.00/month")).
  { apply month_test. vm_compute. reflexivity. }
  assert (Hrun : first_run number_class
                   (price_segment (lit "$1,299.00/month")) (lit "1,299.00")).
  { apply re_search_run_some. vm_compute. reflexivity. }
  destruct (@amount_is_first_number_run Fixture.document) as (Hfirst & _ & Hrec).
  split; [exact Hm | split; [exact Hrun | split]].
  - rewrite (proj1 (Hfirst _ Hm) _ Hrun). vm_compute. reflexivity.
  - apply (Hrec _ _ _ _ _ canada_scrape).
    apply list_elem_of_In. right. left. reflexivity.
Defined.

(** C7 as stated fails: the record of a price text without month has the
    currency "Unknown". *)
Lemma unknown_currency_counterexample :
  Fixture.free_row ∈
    match (@process_country Fixture.document (lit "Canada")
             (Fixture.page Fixture.canada_html) Fixture.start).1 with
    | Return rs => rs
    | Raise _ | RaiseBase _ => []
    end
  /\ Currency Fixture.free_row = lit "Unknown"
  /\ Price Fixture.free_row = lit "Free"
  /\ ~ has_month (Price Fixture.free_row).
Proof.
  split; [rewrite canada_scrape; apply list_elem_of_In; left; reflexivity|].
  split; [reflexivity|]. split; [reflexivity|].
  intros Hm. apply month_test in Hm. vm_compute in Hm. discriminate.
Qed.

Lemma unknown_currency_cases_witness :
  Fixture.free_row ∈ [Fixture.free_row; Fixture.standard_row]
  /\ Currency Fixture.free_row = lit "Unknown"
  /\ (Price Fixture.free_row = []
      \/ ~ has_month (Price Fixture.free_row)
      \/ Forall (fun c => currency_class c = false)
                (price_segment (Price Fixture.free_row))
      \/ first_run currency_class (price_segment (Price Fixture.free_row))
                   (lit "Unknown")).
Proof.
  assert (Hin : Fixture.free_row ∈ [Fixture.free_row; Fixture.standard_row]).
  { apply list_elem_of_In. left. reflexivity. }
  split; [exact Hin | split; [reflexivity|]].
  exact (@unknown_currency_cases Fixture.document _ _ _ _ _ _
           canada_scrape Hin eq_refl).
Defined.

(** C9 as stated fails: the Price field has lost the space that follows the
    colon in the list item. *)
Lemma untrimmed_price_counterexample :
  Fixture.standard_row ∈
    match (@process_country Fixture.document (lit "Canada")
             (Fixture.page Fixture.canada_html) Fixture.start).1 with
    | Return rs => rs
    | Raise _ | RaiseBase _ => []
    end
  /\ after_colon (@text Fixture.document Fixture.standard_item)
     = lit " $16.49/month"
  /\ Price Fixture.standard_row = lit "$16.49/month"
  /\ Price Fixture.standard_row
     <> after_colon (@text Fixture.document Fixture.standard_item).
Proof.
  split; [rewrite canada_scrape; apply list_elem_of_In; right; left; reflexivity|].
  split; [vm_compute; reflexivity|]. split; [reflexivity|].
  vm_compute. discriminate.
Qed.

Lemma price_is_trimmed_text_after_colon_witness :
  Fixture.standard_row ∈ [Fixture.free_row; Fixture.standard_row]
  /\ (Fixture.standard_row = na_record (lit "Canada")
      \/ exists li,
           li ∈ @pricing_items Fixture.document
                  (@BeautifulSoup Fixture.document Fixture.canada_html
                     (lit "html.parser"))
           /\ In colon (@text Fixture.document li)
           /\ Price Fixture.standard_row
              = strip (after_colon (@text Fixture.document li))).
Proof.
  assert (Hin : Fixture.standard_row ∈ [Fixture.free_row; Fixture.standard_row]).
  { apply list_elem_of_In. right. left. reflexivity. }
  split; [exact Hin|].
  exact (@price_is_trimmed_text_after_colon Fixture.document _ _ _ _ _ _ _
           canada_scrape canada_navigation Hin).
Defined.

(** ** Further properties of the price parser *)

Lemma unknown_is_token :
  Forall (fun c => currency_class c = true) (lit "Unknown").
Proof.
  vm_compute lit. repeat (constructor; [vm_compute; reflexivity|]). constructor.
Qed.

Lemma first_run_class cls s run :
  first_run cls s run -> run <> [] /\ Forall (fun c => cls c = true) run.
Proof. intros (pre & post & _ & _ & Hne & Hrun & _). now split. Qed.

(** X1: whatever the price text, the currency that is returned is not
    empty and holds no digit, white space, comma or period. *)
Theorem currency_is_a_token (price_text : str) :
  (extract_price_details price_text).1.1 <> []
  /\ Forall (fun c => currency_class c = true)
            (extract_price_details price_text).1.1.
Proof.
  unfold extract_price_details.
  destruct (negb (truthy price_text)
            || negb (contains (lit "month") (lower price_text))); simpl.
  - split; [discriminate | apply unknown_is_token].
  - destruct (re_search_run currency_class _) as [g|] eqn:E.
    + apply re_search_run_some in E. now apply first_run_class in E.
    + split; [discriminate | apply unknown_is_token].
Qed.

(** X2: whatever the price text, every character of the amount that is
    returned is a decimal digit or a period. *)
Theorem amount_digits_and_periods (price_text : str) :
  Forall (fun c => isdecimal c = true \/ c = period)
         (extract_price_details price_text).1.2.
Proof.
  unfold extract_price_details.
  destruct (negb (truthy price_text)
            || negb (contains (lit "month") (lower price_text))); simpl.
  - constructor.
  - destruct (re_search_run number_class _) as [g|] eqn:E; [|constructor].
    apply re_search_run_some, first_run_class in E as [_ Hg].
    rewrite Forall_forall in Hg. apply Forall_forall. intros c Hc.
    unfold remove_commas in Hc. apply list_elem_of_filter in Hc as [Hne Hc].
    specialize (Hg c Hc). unfold number_class in Hg.
    apply orb_true_iff in Hg as [Hg|Hg]; [|right; now apply N.eqb_eq].
    apply orb_true_iff in Hg as [Hg|Hg]; [now left|].
    apply N.eqb_eq in Hg. contradiction.
Qed.

(** X3: for a price text with month, the currency is the first run of
    characters of the price segment that are neither digits, white space,
    commas nor periods, and it is the word Unknown when the segment has no
    such character. *)
Theorem currency_is_first_token_run (price_text : str) :
  has_month price_text ->
  (forall run,
     first_run currency_class (price_segment price_text) run ->
     (extract_price_details price_text).1.1 = run)
  /\ (Forall (fun c => currency_class c = false) (price_segment price_text) ->
      (extract_price_details price_text).1.1 = lit "Unknown").
Proof.
  intros Hm.
  rewrite extract_with_month;
    [| now apply has_month_truthy | now apply month_test].
  unfold currency_token. simpl. split.
  - intros run Hrun. apply re_search_run_some in Hrun. now rewrite Hrun.
  - intros Hnone. apply re_search_run_none in Hnone. now rewrite Hnone.
Qed.

Lemma currency_is_first_token_run_witness :
  has_month (lit "from USD 7.99 / Month")
  /\ first_run currency_class (price_segment (lit "from USD 7.99 / Month"))
       (lit "from")
  /\ (extract_price_details (lit "from USD 7.99 / Month")).1.1 = lit "from".
Proof.
  assert (Hm : has_month (lit "from USD 7.99 / Month")).
  { apply month_test. vm_compute. reflexivity. }
  assert (Hrun : first_run currency_class
                   (price_segment (lit "from USD 7.99 / Month")) (lit "from")).
  { apply re_search_run_some. vm_compute. reflexivity. }
  split; [exact Hm | split; [exact Hrun|]].
  exact (proj1 (currency_is_first_token_run _ Hm) _ Hrun).
Defined.

(** The text before the leftmost marker holds no marker. *)
Lemma find_marker_pre_clean s pre post :
  find_marker s = Some (pre, post) -> ~ has_marker pre.
Proof.
  intros E (p & q & ws & w & Hpre & Hws & Hw).
  destruct (find_marker_sound _ _ _ E) as (ws' & w' & Hs & _ & _).
  destruct (find_marker_first s p (q ++ [slash] ++ ws' ++ w' ++ post))
    as (pre' & post' & E' & Hlen).
  { exists ws, w. split; [|split; assumption].
    rewrite Hs, Hpre. now rewrite <- !app_assoc. }
  rewrite E in E'. injection E' as <- <-.
  rewrite Hpre in Hlen. rewrite !length_app in Hlen. simpl in Hlen. lia.
Qed.

Lemma trimmed_nil : trimmed [].
Proof. split; reflexivity. Qed.

(** X4: for a price text with month, the note that is returned has no
    white space at either end and holds no occurrence of the marker
    slash, spaces, month. *)
Theorem note_trimmed_without_marker (price_text : str) :
  has_month price_text ->
  trimmed (extract_price_details price_text).2
  /\ ~ has_marker (extract_price_details price_text).2.
Proof.
  intros Hm.
  rewrite extract_with_month;
    [| now apply has_month_truthy | now apply month_test].
  unfold note_segment. simpl.
  destruct (find_marker (strip price_text)) as [[pre post]|].
  - destruct (find_marker post) as [[mid rest]|] eqn:E.
    + split; [apply strip_trimmed|].
      intros Hs. apply has_marker_strip in Hs.
      now apply (find_marker_pre_clean _ _ _ E).
    + split; [apply strip_trimmed|].
      intros Hs. apply has_marker_strip in Hs.
      now apply find_marker_none in E.
  - split; [apply trimmed_nil|]. now apply find_marker_none.
Qed.

Lemma note_trimmed_without_marker_witness :
  has_month (lit "$5/month then $10/month")
  /\ trimmed (extract_price_details (lit "$5/month then $10/month")).2
  /\ ~ has_marker (extract_price_details (lit "$5/month then $10/month")).2.
Proof.
  assert (Hm : has_month (lit "$5/month then $10/month")).
  { apply month_test. vm_compute. reflexivity. }
  split; [exact Hm|]. exact (note_trimmed_without_marker _ Hm).
Defined.

Lemma spells_month_last w :
  spells_month w -> exists w' x, w = w' ++ [x] /\ isspace x = false.
Proof.
  unfold spells_month. vm_compute lit. intros Hw.
  repeat match goal with
         | H : Forall2 _ (_ :: _) _ |- _ =>
             inversion H as [|? ? ? ? ? ?]; subst; clear H
         | H : Forall2 _ [] _ |- _ => inversion H; subst; clear H
         end.
  match goal with
  | |- exists w' x, [?a; ?b; ?c; ?d; ?e] = _ /\ _ =>
      exists [a; b; c; d], e; split; [reflexivity|]
  end.
  match goal with
  | Hv : case_variant 104 _ |- _ => destruct Hv as [->| ->]; reflexivity
  end.
Qed.

Lemma has_month_drop_first c t :
  isspace c = true -> has_month (c :: t) -> has_month t.
Proof.
  intros Hc (pre & w & post & Hs & Hw). destruct pre as [|a pre].
  - pose proof (spells_month_head w Hw) as Hh.
    destruct w as [|a w]; [inversion Hw|].
    injection Hs as <- _. congruence.
  - injection Hs as _ ->. exists pre, w, post. now split.
Qed.

Lemma has_month_drop_last t c :
  isspace c = true -> has_month (t ++ [c]) -> has_month t.
Proof.
  intros Hc (pre & w & post & Hs & Hw).
  destruct post as [|x post' _] using rev_ind.
  - destruct (spells_month_last w Hw) as (w' & x & -> & Hx).
    rewrite app_nil_r, app_assoc in Hs.
    apply app_inj_tail in Hs as [_ ->]. congruence.
  - rewrite !app_assoc in Hs. apply app_inj_tail in Hs as [-> _].
    exists pre, w, post'. split; [now rewrite <- app_assoc | assumption].
Qed.

Lemma has_month_strip s : has_month s -> has_month (strip s).
Proof.
  destruct (strip_decompose s) as (l & r & Hs & Hl & Hr).
  rewrite Hs at 1. clear Hs. generalize (strip s). intros t.
  induction Hl as [|c l Hc _ IHl]; simpl.
  - induction r as [|c r IHr] using rev_ind.
    + now rewrite app_nil_r.
    + apply Forall_app in Hr as [Hr Hc]. inversion Hc; subst.
      rewrite app_assoc. intros Hm. apply has_month_drop_last in Hm; auto.
  - intros Hm. apply has_month_drop_first in Hm; auto.
Qed.

(** X5: white space around a price text with month changes nothing: the
    text and its trimmed form give the same currency, amount and note. *)
Theorem surrounding_space_ignored (price_text : str) :
  has_month price_text ->
  extract_price_details (strip price_text) = extract_price_details price_text.
Proof.
  intros Hm. pose proof (has_month_strip _ Hm) as Hs.
  rewrite (extract_with_month (strip price_text));
    [| now apply has_month_truthy | now apply month_test].
  rewrite (extract_with_month price_text);
    [| now apply has_month_truthy | now apply month_test].
  unfold price_segment, note_segment. rewrite !strip_idem. reflexivity.
Qed.

Lemma surrounding_space_ignored_witness :
  has_month (lit "  $15.49/month  ")
  /\ extract_price_details (strip (lit "  $15.49/month  "))
     = extract_price_details (lit "  $15.49/month  ").
Proof.
  assert (Hm : has_month (lit "  $15.49/month  ")).
  { apply month_test. vm_compute. reflexivity. }
  split; [exact Hm|]. exact (surrounding_space_ignored _ Hm).
Defined.

(** X6: for a price text with month in which no marker follows the first
    one, the note is all the text after that marker, trimmed (and it is
    empty when the text has no marker). *)
Theorem note_after_single_marker (price_text : str) :
  has_month price_text ->
  (forall pre post,
     find_marker (strip price_text) = Some (pre, post) -> ~ has_marker post) ->
  (extract_price_details price_text).2 = after_first_marker price_text.
Proof.
  intros Hm Hone.
  rewrite extract_with_month;
    [| now apply has_month_truthy | now apply month_test].
  unfold note_segment, after_first_marker. simpl.
  destruct (find_marker (strip price_text)) as [[pre post]|] eqn:E;
    [|reflexivity].
  specialize (Hone _ _ eq_refl). apply find_marker_none in Hone.
  now rewrite Hone.
Qed.

Lemma note_after_single_marker_witness :
  has_month (lit "$7.99 / month for 3 months")
  /\ (forall pre post,
        find_marker (strip (lit "$7.99 / month for 3 months")) = Some (pre, post) ->
        ~ has_marker post)
  /\ (extract_price_details (lit "$7.99 / month for 3 months")).2
     = lit "for 3 months".
Proof.
  assert (Hm : has_month (lit "$7.99 / month for 3 months")).
  { apply month_test. vm_compute. reflexivity. }
  assert (Hone : forall pre post,
            find_marker (strip (lit "$7.99 / month for 3 months")) = Some (pre, post) ->
            ~ has_marker post).
  { intros pre post E. vm_compute in E. injection E as _ <-.
    apply find_marker_none. vm_compute. reflexivity. }
  split; [exact Hm | split; [exact Hone|]].
  rewrite (note_after_single_marker _ Hm Hone). vm_compute. reflexivity.
Defined.

(** ** Further properties of [process_country] *)

Lemma strip_sublist c s : In c (strip s) -> In c s.
Proof.
  destruct (strip_decompose s) as (l & r & Hs & _ & _).
  intros Hc. rewrite Hs. rewrite !in_app_iff. auto.
Qed.

Lemma before_colon_clean s : ~ In colon (before_colon s).
Proof.
  unfold before_colon.
  destruct (partition_colon s) as [[a b]|] eqn:E;
    [|now apply partition_colon_none].
  revert a b E. induction s as [|c s IH]; intros a b E; [discriminate|].
  simpl in E. destruct (N.eqb_spec c colon) as [->|Hc].
  - injection E as <- _. auto.
  - destruct (partition_colon s) as [[a' b']|]; [|discriminate].
    injection E as <- _. intros [?|Hin]; [congruence|].
    now apply (IH a' b' eq_refl).
Qed.

Section ScraperProperties.
Context `{DocumentView}.

Lemma row_of_fields country li :
  Country (row_of country li) = country
  /\ Plan (row_of country li) = strip (before_colon (text li))
  /\ Price (row_of country li) = strip (after_colon (text li))
  /\ (Currency (row_of country li), Amount (row_of country li),
      Note (row_of country li))
     = extract_price_details (Price (row_of country li)).
Proof.
  unfold row_of. simpl.
  destruct (strip_around_colon (text li)) as [-> ->].
  repeat split.
  now destruct (extract_price_details _) as [[? ?] ?].
Qed.

(** X7: handling a list item never raises.  An item without a colon leaves
    the results as they are; an item with a colon adds one record, made of
    the trimmed texts before and after its first colon. *)
Theorem list_item_never_raises (country : str) (results : list PriceRecord)
    (li : Tag) (w : World) :
  exists rs,
    li_row country results li w = (Return rs, w)
    /\ (contains (lit ":") (text li) = false -> rs = results)
    /\ (contains (lit ":") (text li) = true ->
        exists r,
          rs = results ++ [r]
          /\ Country r = country
          /\ Plan r = strip (before_colon (text li))
          /\ Price r = strip (after_colon (text li))).
Proof.
  rewrite li_row_run. eexists. split; [reflexivity|].
  unfold has_colon. split; intros ->.
  - apply app_nil_r.
  - exists (row_of country li). split; [reflexivity|].
    destruct (row_of_fields country li) as (? & ? & ? & _). auto.
Qed.

(** X8: every record that [process_country] returns carries the country it
    was called with. *)
Theorem records_carry_country (country : str) (page : Page) (w w' : World)
    (rs : list PriceRecord) (r : PriceRecord) :
  process_country country page w = (Return rs, w') ->
  r ∈ rs ->
  Country r = country.
Proof.
  intros Hrun0. apply process_country_returns in Hrun0 as (-> & _ & _).
  intros Hr.
  apply scrape_result_cases in Hr as [(msg & _ & ->)|(html & _ & Hr)];
    [reflexivity|].
  apply records_of_cases in Hr as [->|(li & _ & _ & ->)]; reflexivity.
Qed.

(** X9: the Plan field of every record that [process_country] returns has
    no white space at either end and holds no colon. *)
Theorem plan_trimmed_without_colon (country : str) (page : Page)
    (w w' : World) (rs : list PriceRecord) (r : PriceRecord) :
  process_country country page w = (Return rs, w') ->
  r ∈ rs ->
  trimmed (Plan r) /\ ~ In colon (Plan r).
Proof.
  intros Hrun0. apply process_country_returns in Hrun0 as (-> & _ & _).
  intros Hr.
  assert (Hconst : forall s : str,
            s = lit "ERROR" \/ s = lit "N/A" -> trimmed s /\ ~ In colon s).
  { intros s [->| ->]; (split; [split; vm_compute; reflexivity|]);
      vm_compute; intuition discriminate. }
  apply scrape_result_cases in Hr as [(msg & _ & ->)|(html & _ & Hr)];
    [apply Hconst; now left|].
  apply records_of_cases in Hr as [->|(li & _ & _ & ->)];
    [apply Hconst; now right|].
  destruct (row_of_fields country li) as (_ & -> & _). split.
  - apply strip_trimmed.
  - intros Hc. apply strip_sublist in Hc. now apply before_colon_clean in Hc.
Qed.

(** X10: in every record that [process_country] returns, other than the
    N/A record and the ERROR record, the Price has no white space at
    either end and Currency, Amount and Note are what
    [extract_price_details] makes of that Price. *)
Theorem parsed_fields_match_price (country : str) (page : Page)
    (w w' : World) (rs : list PriceRecord) (r : PriceRecord) :
  process_country country page w = (Return rs, w') ->
  r ∈ rs ->
  r = na_record country
  \/ (exists msg, navigation country page = Raise msg
                  /\ r = error_record country msg)
  \/ (trimmed (Price r)
      /\ (Currency r, Amount r, Note r) = extract_price_details (Price r)).
Proof.
  intros Hrun0. apply process_country_returns in Hrun0 as (-> & _ & _).
  intros Hr.
  apply scrape_result_cases in Hr as [(msg & Hnav & ->)|(html & _ & Hr)];
    [right; left; eauto|].
  apply records_of_cases in Hr as [->|(li & _ & _ & ->)]; [now left|].
  right. right. destruct (row_of_fields country li) as (_ & _ & Hp & Hf).
  split; [|exact Hf]. rewrite Hp. apply strip_trimmed.
Qed.

(** X11: when the page renders and its pricing section has list items with
    a colon, [process_country] returns one record for each of them, in the
    order of the document, and skips the items without a colon. *)
Theorem one_record_per_colon_item (country : str) (page : Page)
    (w w' : World) (rs : list PriceRecord) (html : str) :
  process_country country page w = (Return rs, w') ->
  navigation country page = Return html ->
  List.filter has_colon
    (pricing_items (BeautifulSoup html (lit "html.parser"))) <> [] ->
  map Plan rs
  = map (fun li => strip (before_colon (text li)))
        (List.filter has_colon
           (pricing_items (BeautifulSoup html (lit "html.parser"))))
  /\ map Price rs
     = map (fun li => strip (after_colon (text li)))
           (List.filter has_colon
              (pricing_items (BeautifulSoup html (lit "html.parser")))).
Proof.
  intros Hrun0. apply process_country_returns in Hrun0 as (-> & _ & _).
  intros Hnav Hne.
  unfold scrape_result, records_of. rewrite Hnav.
  destruct (List.filter has_colon _) as [|li lis]; [contradiction|].
  rewrite !map_map. split; apply map_ext; intros x;
    destruct (row_of_fields country x) as (_ & Hplan & Hprice & _); assumption.
Qed.


(** X13: the click on the cookie button has no influence: two pages that
    differ only in what that click does give the same records and the same
    console line. *)
Theorem cookie_click_is_irrelevant (country : str) (p p' : Page) (w : World) :
  same_but_cookie_click p p' ->
  process_country country p w = process_country country p' w.
Proof.
  intros (Hgoto & Hwait & Hclick & Hsel & Hcontent).
  assert (Hnav : navigation country p = navigation country p').
  { unfold navigation.
    rewrite Hgoto, !Hwait, Hsel, Hcontent, Hclick; [reflexivity|].
    intros Heq. vm_compute in Heq. discriminate. }
  rewrite !process_country_run. unfold scrape_result, scrape_line.
  now rewrite Hnav.
Qed.

End ScraperProperties.

Lemma list_item_never_raises_witness :
  contains (lit ":") (@text Fixture.document Fixture.standard_item) = true
  /\ exists r,
       (@li_row Fixture.document (lit "Canada") [] Fixture.standard_item
          Fixture.start).1 = Return [r]
       /\ Price r = lit "$16.49/month".
Proof.
  destruct (@list_item_never_raises Fixture.document (lit "Canada") []
              Fixture.standard_item Fixture.start)
    as (rs & Hrun & _ & Hcolon).
  assert (Hc : contains (lit ":") (@text Fixture.document Fixture.standard_item)
               = true) by (vm_compute; reflexivity).
  split; [exact Hc|].
  destruct (Hcolon Hc) as (r & -> & _ & _ & Hprice).
  exists r. split; [now rewrite Hrun|].
  rewrite Hprice. vm_compute. reflexivity.
Defined.

Lemma canada_free_row : Fixture.free_row ∈ [Fixture.free_row; Fixture.standard_row].
Proof. apply list_elem_of_In. left. reflexivity. Qed.

Lemma canada_standard_row :
  Fixture.standard_row ∈ [Fixture.free_row; Fixture.standard_row].
Proof. apply list_elem_of_In. right. left. reflexivity. Qed.

Lemma records_carry_country_witness :
  Fixture.standard_row ∈ [Fixture.free_row; Fixture.standard_row]
  /\ Country Fixture.standard_row = lit "Canada".
Proof.
  split; [exact canada_standard_row|].
  exact (@records_carry_country Fixture.document _ _ _ _ _ _
           canada_scrape canada_standard_row).
Defined.

Lemma plan_trimmed_without_colon_witness :
  Fixture.standard_row ∈ [Fixture.free_row; Fixture.standard_row]
  /\ trimmed (Plan Fixture.standard_row)
  /\ ~ In colon (Plan Fixture.standard_row).
Proof.
  split; [exact canada_standard_row|].
  exact (@plan_trimmed_without_colon Fixture.document _ _ _ _ _ _
           canada_scrape canada_standard_row).
Defined.

Lemma parsed_fields_match_price_witness :
  Fixture.free_row ∈ [Fixture.free_row; Fixture.standard_row]
  /\ (Fixture.free_row = na_record (lit "Canada")
      \/ (exists msg,
            navigation (lit "Canada") (Fixture.page Fixture.canada_html)
              = Raise msg
            /\ Fixture.free_row = error_record (lit "Canada") msg)
      \/ (trimmed (Price Fixture.free_row)
          /\ (Currency Fixture.free_row, Amount Fixture.free_row,
              Note Fixture.free_row)
             = extract_price_details (Price Fixture.free_row))).
Proof.
  split; [exact canada_free_row|].
  exact (@parsed_fields_match_price Fixture.document _ _ _ _ _ _
           canada_scrape canada_free_row).
Defined.

Lemma one_record_per_colon_item_witness :
  List.filter (@has_colon Fixture.document)
    (@pricing_items Fixture.document
       (@BeautifulSoup Fixture.document Fixture.canada_html (lit "html.parser")))
  = [Fixture.free_item; Fixture.standard_item]
  /\ map Plan [Fixture.free_row; Fixture.standard_row]
     = [lit "Basic"; lit "Standard"]
  /\ map Price [Fixture.free_row; Fixture.standard_row]
     = [lit "Free"; lit "$16.49/month"].
Proof.
  assert (Hitems :
    List.filter (@has_colon Fixture.document)
      (@pricing_items Fixture.document
         (@BeautifulSoup Fixture.document Fixture.canada_html (lit "html.parser")))
    = [Fixture.free_item; Fixture.standard_item]).
  { vm_compute. reflexivity. }
  split; [exact Hitems|].
  destruct (@one_record_per_colon_item Fixture.document _ _ _ _ _ _
              canada_scrape canada_navigation) as [Hplan Hprice].
  { rewrite Hitems. discriminate. }
  rewrite Hplan, Hprice, Hitems. split; vm_compute; reflexivity.
Defined.


Lemma cookie_click_is_irrelevant_witness :
  same_but_cookie_click (Fixture.page_without_banner Fixture.canada_html)
                        (Fixture.page Fixture.canada_html)
  /\ @process_country Fixture.document (lit "Canada")
       (Fixture.page_without_banner Fixture.canada_html) Fixture.start
     = @process_country Fixture.document (lit "Canada")
         (Fixture.page Fixture.canada_html) Fixture.start.
Proof.
  assert (Hsame : same_but_cookie_click
                    (Fixture.page_without_banner Fixture.canada_html)
                    (Fixture.page Fixture.canada_html)).
  { repeat split. intros selector timeout Hne. simpl.
    destruct (bool_decide_reflect (selector = cookie_button));
      [contradiction | reflexivity]. }
  split; [exact Hsame|].
  exact (@cookie_click_is_irrelevant Fixture.document _ _ _ _ Hsame).
Defined.

(** ** Further properties of the batches *)

Lemma open_tabs_app a b : open_tabs (a ++ b) = (open_tabs a + open_tabs b)%Z.
Proof.
  induction a as [|e a IH]; [reflexivity|].
  destruct e; simpl; rewrite IH; lia.
Qed.

Lemma prefix_app_cases {A} (p a b : list A) :
  p `prefix_of` a ++ b ->
  p `prefix_of` a \/ exists p', p = a ++ p' /\ p' `prefix_of` b.
Proof.
  revert p. induction a as [|x a IH]; intros p Hp.
  - right. exists p. split; [reflexivity | exact Hp].
  - destruct p as [|y p]; [left; apply prefix_nil|].
    simpl in Hp. pose proof (prefix_cons_inv_1 _ _ _ _ Hp) as ->.
    apply prefix_cons_inv_2 in Hp.
    destruct (IH p Hp) as [Hl|(p' & -> & Hp')].
    + left. now apply prefix_cons.
    + right. exists p'. split; [reflexivity | assumption].
Qed.

Lemma tabs_within_weaken lo hi lo' hi' l :
  (lo' <= lo)%Z -> (hi <= hi')%Z -> tabs_within lo hi l -> tabs_within lo' hi' l.
Proof. intros Hlo Hhi Hl p Hp. specialize (Hl p Hp). lia. Qed.

Lemma tabs_within_app lo hi a b :
  tabs_within lo hi a ->
  tabs_within (lo - open_tabs a) (hi - open_tabs a) b ->
  tabs_within lo hi (a ++ b).
Proof.
  intros Ha Hb p Hp. apply prefix_app_cases in Hp as [Hp|(p' & -> & Hp')].
  - now apply Ha.
  - rewrite open_tabs_app. specialize (Hb p' Hp'). lia.
Qed.

Lemma tabs_within_opened ids :
  tabs_within 0 (Z.of_nat (length ids)) (map TabOpened ids)
  /\ open_tabs (map TabOpened ids) = Z.of_nat (length ids).
Proof.
  induction ids as [|i ids [IH1 IH2]].
  - split; [|reflexivity]. intros p Hp. apply prefix_nil_inv in Hp as ->.
    simpl. lia.
  - split; [|simpl map; simpl open_tabs; rewrite IH2; simpl length; lia].
    intros p Hp. destruct p as [|e p]; [simpl; lia|].
    simpl in Hp. pose proof (prefix_cons_inv_1 _ _ _ _ Hp) as ->.
    apply prefix_cons_inv_2, IH1 in Hp. simpl open_tabs. simpl length. lia.
Qed.

Lemma tabs_within_closed ids :
  tabs_within (- Z.of_nat (length ids)) 0 (map TabClosed ids)
  /\ open_tabs (map TabClosed ids) = (- Z.of_nat (length ids))%Z.
Proof.
  induction ids as [|i ids [IH1 IH2]].
  - split; [|reflexivity]. intros p Hp. apply prefix_nil_inv in Hp as ->.
    simpl. lia.
  - split; [|simpl map; simpl open_tabs; rewrite IH2; simpl length; lia].
    intros p Hp. destruct p as [|e p]; [simpl; lia|].
    simpl in Hp. pose proof (prefix_cons_inv_1 _ _ _ _ Hp) as ->.
    apply prefix_cons_inv_2, IH1 in Hp. simpl open_tabs. simpl length. lia.
Qed.

Lemma open_tabs_scrape_events l : Forall scrape_event l -> open_tabs l = 0%Z.
Proof.
  induction 1 as [|e l He _ IH]; [reflexivity|].
  destruct e; simpl in *; try contradiction; assumption.
Qed.

Lemma tabs_within_scrape_events l :
  Forall scrape_event l -> tabs_within 0 0 l.
Proof.
  intros Hl p [k ->]. apply Forall_app in Hl as [Hp _].
  rewrite (open_tabs_scrape_events p Hp). lia.
Qed.

(** ** The country labels *)

(** X16: the country list is read from the entries in their order.  The
    comprehension returns exactly when every entry has the key label, and
    then it returns the labels one for one; otherwise it raises KeyError
    for that key. *)
Theorem countries_of_labels {V} (countries_data : list (gmap string V)) :
  (forall labels,
     countries_of countries_data = Return labels
     <-> Forall2 (fun entry label => entry !! "label"%string = Some label)
                 countries_data labels)
  /\ (forall msg,
        countries_of countries_data = Raise msg ->
        msg = lit "'label'"
        /\ exists entry,
             entry ∈ countries_data /\ entry !! "label"%string = None).
Proof.
  induction countries_data as [|entry rest [IH1 IH2]].
  - split.
    + intros labels. simpl. split.
      * intros [= <-]. constructor.
      * intros Hf. inversion Hf. reflexivity.
    + intros msg Hr. discriminate.
  - simpl. destruct (entry !! "label"%string) as [label|] eqn:E.
    + unfold mbind, outcome_bind, mret, outcome_ret.
      destruct (countries_of rest) as [ls|m|m] eqn:Er.
      3:{ split.
          - intros labels. split; [discriminate|].
            intros Hf. inversion Hf as [|? l' ? ls' Hl Hrest]; subst.
            apply IH1 in Hrest. discriminate.
          - intros msg Hr. discriminate. }
      * split.
        -- intros labels. split.
           ++ intros [= <-]. constructor; [assumption | now apply IH1].
           ++ intros Hf. inversion Hf as [|? l' ? ls' Hl Hrest]; subst.
              apply IH1 in Hrest. congruence.
        -- intros msg Hr. discriminate.
      * split.
        -- intros labels. split; [discriminate|].
           intros Hf. inversion Hf as [|? l' ? ls' Hl Hrest]; subst.
           apply IH1 in Hrest. discriminate.
        -- intros msg [= <-]. destruct (IH2 m eq_refl) as (-> & e & He & Hn).
           split; [reflexivity|]. exists e. split; [|assumption].
           apply elem_of_cons. now right.
    + split.
      * intros labels. split; [discriminate|].
        intros Hf. inversion Hf; subst. congruence.
      * intros msg [= <-]. split; [reflexivity|].
        exists entry. split; [apply elem_of_cons; now left | assumption].
Qed.

Lemma countries_of_labels_witness :
  countries_of [ {[ "label"%string := lit "Canada" ]};
                 {[ "label"%string := lit "Wakanda" ]} ]
  = Return [lit "Canada"; lit "Wakanda"]
  /\ countries_of [ {[ "label"%string := lit "Canada" ]};
                    {[ "code"%string := lit "WK" ]} ]
     = Raise (lit "'label'").
Proof.
  split.
  - apply (proj1 (countries_of_labels _)).
    repeat constructor.
  - destruct (countries_of [ {[ "label"%string := lit "Canada" ]};
                             {[ "code"%string := lit "WK" ]} ])
      as [ls|msg|msg] eqn:E.
    + apply (proj1 (countries_of_labels _)) in E.
      inversion E as [|? ? ? ? _ Hrest]; subst.
      inversion Hrest as [|? ? ? ? Hl _]; subst.
      vm_compute in Hl. discriminate.
    + apply (proj2 (countries_of_labels _)) in E as [-> _]. reflexivity.
    + vm_compute in E. discriminate.
Defined.

(** ** The orchestrator *)

Lemma emit_each {A} (f : A -> Event) (xs : list A) (w : World) :
  for_each (fun _ x => emit (f x)) xs tt w =
  (Return tt,
   {| console := console w;
      trace := trace w ++ map f xs;
      tabs_opened := tabs_opened w |}).
Proof.
  revert w. induction xs as [|x xs IH]; intros w.
  - simpl. rewrite app_nil_r. now destruct w.
  - simpl. unfold mbind, IO_bind, emit at 1. rewrite IH. simpl.
    now rewrite <- app_assoc.
Qed.

Lemma foldl_extend {A} (results : list A) (rs : list (list A)) :
  foldl (fun results res => results ++ res) results rs = results ++ concat rs.
Proof.
  revert results. induction rs as [|r rs IH]; intros results; simpl.
  - now rewrite app_nil_r.
  - now rewrite IH, app_assoc.
Qed.

Lemma slots_results {A} (slots : list (option A)) :
  forall outs : list (outcome A),
    length slots = length outs ->
    (forall i r, slots !! i = Some (Some r) -> outs !! i = Some (Return r)) ->
    (forall i, (i < length slots)%nat -> slots !! i <> Some None) ->
    outs = Return <$> omap id slots.
Proof.
  induction slots as [|s slots IH]; intros [|o outs] Hlen Hinv Hfull;
    try discriminate; [reflexivity|].
  destruct s as [r|]; [|now destruct (Hfull 0%nat ltac:(simpl; lia))].
  pose proof (Hinv 0%nat r eq_refl) as Ho. injection Ho as ->.
  change (Return r :: outs = Return r :: (Return <$> omap id slots)).
  f_equal. apply IH.
  - simpl in Hlen. lia.
  - intros i r' Hi. exact (Hinv (S i) r' Hi).
  - intros i Hi. apply (Hfull (S i)). simpl. lia.
Qed.

Lemma finished_positions {A} (tasks : list (Task A)) :
  forall pre,
    map (finished (pre ++ tasks)) (seq (length pre) (length tasks))
    = map (fun t => ScrapeFinished (task_tab t)) tasks.
Proof.
  induction tasks as [|t tasks IH]; intros pre; [reflexivity|].
  simpl. f_equal.
  - unfold finished. now rewrite list_lookup_middle.
  - specialize (IH (pre ++ [t])). rewrite <- app_assoc in IH. simpl in IH.
    rewrite length_app, Nat.add_1_r in IH. exact IH.
Qed.

(** The tasks of a [gather] complete one after the other; the first one
    that raises ends the wait. *)
Lemma await_tasks_run {A} (tasks : list (Task A)) (outs : list (outcome A)) :
  Forall2 settles tasks outs ->
  forall order slots w,
    length slots = length tasks ->
    (forall i r, slots !! i = Some (Some r) -> outs !! i = Some (Return r)) ->
    exists out w' done,
      await_tasks tasks order slots w = (out, w')
      /\ tabs_opened w' = tabs_opened w
      /\ trace w' = trace w ++ map (finished tasks) done
      /\ NoDup done
      /\ (forall i, i ∈ done -> slots !! i = Some None)
      /\ (forall slots',
            out = Return slots' ->
            length slots' = length tasks
            /\ (forall i r, slots' !! i = Some (Some r) -> outs !! i = Some (Return r))
            /\ (forall i r, slots !! i = Some (Some r) -> slots' !! i = Some (Some r))
            /\ (forall i, i ∈ order -> (i < length tasks)%nat ->
                  slots' !! i <> Some None)
            /\ (forall i, slots !! i = Some None -> slots' !! i <> Some None ->
                  i ∈ done))
      /\ ((forall i o, outs !! i = Some o -> exists r, o = Return r) ->
          exists slots', out = Return slots').
Proof.
  intros Hset. induction order as [|i order IH]; intros slots w Hlen Hinv.
  - exists (Return slots), w, []. simpl. rewrite app_nil_r.
    split; [reflexivity|]. split; [reflexivity|]. split; [reflexivity|].
    split; [constructor|]. split.
    { intros i Hi. now apply elem_of_nil in Hi. }
    split; [|eauto].
    intros slots' [= <-]. split; [assumption|]. split; [assumption|].
    split; [auto|]. split.
    + intros i Hi. now apply elem_of_nil in Hi.
    + intros i Hs Hn. contradiction.
  - destruct (tasks !! i) as [t|] eqn:Et.
    2:{ destruct (IH slots w Hlen Hinv)
          as (out & w' & done & Hrun & Ht & Htr & Hnd & Hpend & Hret & Htot).
        exists out, w', done. split; [simpl; now rewrite Et|].
        repeat (split; [assumption|]). split; [|assumption].
        intros slots' Hout.
        destruct (Hret slots' Hout) as (Hl & Hi & Hkeep & Hdone & Hfin).
        repeat (split; [assumption|]). split; [|assumption].
        intros j Hj Hlt. apply elem_of_cons in Hj as [->|Hj]; [|now apply Hdone].
        apply lookup_lt_is_Some_2 in Hlt as [t Ht']. congruence. }
    destruct (slots !! i) as [[r0|]|] eqn:Es.
    + destruct (IH slots w Hlen Hinv)
        as (out & w' & done & Hrun & Ht & Htr & Hnd & Hpend & Hret & Htot).
      exists out, w', done. split; [simpl; now rewrite Et, Es|].
      repeat (split; [assumption|]). split; [|assumption].
      intros slots' Hout.
      destruct (Hret slots' Hout) as (Hl & Hi & Hkeep & Hdone & Hfin).
      repeat (split; [assumption|]). split; [|assumption].
      intros j Hj Hlt. apply elem_of_cons in Hj as [->|Hj]; [|now apply Hdone].
      rewrite (Hkeep _ _ Es). discriminate.
    + destruct (Forall2_lookup_l _ _ _ _ _ Hset Et) as (o & Ho & Hsettle).
      destruct (Hsettle w) as (w1 & Hw1 & Htr1 & Htab1).
      assert (Hi_lt : (i < length slots)%nat) by (eapply lookup_lt_Some; eauto).
      destruct o as [r|msg|msg].
      * set (w2 := {| console := console w1;
                      trace := trace w1 ++ [ScrapeFinished (task_tab t)];
                      tabs_opened := tabs_opened w1 |}).
        destruct (IH (<[i := Some r]> slots) w2)
          as (out & w' & done & Hrun & Ht & Htr & Hnd & Hpend & Hret & Htot).
        { now rewrite length_insert. }
        { intros j r' Hj. destruct (decide (i = j)) as [->|Hne].
          - rewrite list_lookup_insert_eq in Hj by assumption. congruence.
          - rewrite list_lookup_insert_ne in Hj by assumption. eauto. }
        assert (Hfresh : i ∉ done).
        { intros Hin. apply Hpend in Hin.
          rewrite list_lookup_insert_eq in Hin by assumption. discriminate. }
        exists out, w', (i :: done). split.
        { simpl. rewrite Et, Es. unfold mbind, IO_bind. rewrite Hw1.
          unfold emit at 1. fold w2. exact Hrun. }
        split; [now rewrite Ht|]. split.
        { rewrite Htr. simpl. rewrite Htr1, <- app_assoc. simpl.
          unfold finished at 2. now rewrite Et. }
        split; [now constructor|]. split.
        { intros j Hj. apply elem_of_cons in Hj as [->|Hj]; [assumption|].
          specialize (Hpend j Hj). destruct (decide (i = j)) as [->|Hne].
          - rewrite list_lookup_insert_eq in Hpend by assumption. discriminate.
          - now rewrite list_lookup_insert_ne in Hpend. }
        split; [|assumption].
        intros slots' Hout.
        destruct (Hret slots' Hout) as (Hl & Hi & Hkeep & Hdone & Hfin).
        assert (Hmine : slots' !! i = Some (Some r)).
        { apply Hkeep. now apply list_lookup_insert_eq. }
        split; [assumption|]. split; [assumption|]. split.
        { intros j r' Hj. apply Hkeep.
          rewrite list_lookup_insert_ne; [assumption | congruence]. }
        split.
        { intros j Hj Hlt.
          apply elem_of_cons in Hj as [->|Hj]; [|now apply Hdone].
          rewrite Hmine. discriminate. }
        intros j Hs Hn. apply elem_of_cons.
        destruct (decide (i = j)) as [->|Hne]; [now left|].
        right. apply Hfin; [|assumption]. now rewrite list_lookup_insert_ne.
      * exists (Raise msg), w1, []. split.
        { simpl. rewrite Et, Es. unfold mbind, IO_bind. now rewrite Hw1. }
        split; [assumption|]. split; [now rewrite app_nil_r|].
        split; [constructor|]. split.
        { intros j Hj. now apply elem_of_nil in Hj. }
        split; [discriminate|].
        intros Hall. destruct (Hall _ _ Ho) as [r Hr]. discriminate.
      * exists (RaiseBase msg), w1, []. split.
        { simpl. rewrite Et, Es. unfold mbind, IO_bind. now rewrite Hw1. }
        split; [assumption|]. split; [now rewrite app_nil_r|].
        split; [constructor|]. split.
        { intros j Hj. now apply elem_of_nil in Hj. }
        split; [discriminate|].
        intros Hall. destruct (Hall _ _ Ho) as [r Hr]. discriminate.
    + destruct (IH slots w Hlen Hinv)
        as (out & w' & done & Hrun & Ht & Htr & Hnd & Hpend & Hret & Htot).
      exists out, w', done. split; [simpl; now rewrite Et, Es|].
      repeat (split; [assumption|]). split; [|assumption].
      intros slots' Hout.
      destruct (Hret slots' Hout) as (Hl & Hi & Hkeep & Hdone & Hfin).
      repeat (split; [assumption|]). split; [|assumption].
      intros j Hj Hlt. apply elem_of_cons in Hj as [->|Hj]; [|now apply Hdone].
      apply lookup_ge_None in Es. lia.
Qed.

(** [gather] returns the results of its tasks by position, whatever the
    order of completion; it raises what the first failing task raises. *)
Lemma gather_run {A} (order : list nat) (tasks : list (Task A))
    (outs : list (outcome A)) (w : World) :
  Forall2 settles tasks outs ->
  exists out w' fin,
    gather order tasks w = (out, w')
    /\ tabs_opened w' = tabs_opened w
    /\ trace w' =
       trace w ++ map (fun t => ScrapeStarted (task_tab t)) tasks ++ fin
    /\ Forall (fun e => exists t, t ∈ tasks /\ e = ScrapeFinished (task_tab t)) fin
    /\ (forall res,
          out = Return res ->
          outs = Return <$> res
          /\ fin ≡ₚ map (fun t => ScrapeFinished (task_tab t)) tasks)
    /\ ((forall i o, outs !! i = Some o -> exists r, o = Return r) ->
        exists res, out = Return res).
Proof.
  intros Hset.
  set (w1 := {| console := console w;
                trace := trace w ++ map (fun t => ScrapeStarted (task_tab t)) tasks;
                tabs_opened := tabs_opened w |}).
  destruct (await_tasks_run tasks outs Hset
              (order ++ seq 0 (length tasks))
              (replicate (length tasks) None) w1)
    as (out & w' & done & Hrun & Ht & Htr & Hnd & Hpend & Hret & Htot).
  { apply length_replicate. }
  { intros i r Hi. apply lookup_replicate in Hi as [? _]. discriminate. }
  assert (Hrange : forall i, i ∈ done -> (i < length tasks)%nat).
  { intros i Hi. apply Hpend, lookup_replicate in Hi as [_ ?]. assumption. }
  exists (match out with
          | Return slots => Return (omap id slots)
          | Raise msg => Raise msg
          | RaiseBase msg => RaiseBase msg
          end), w', (map (finished tasks) done).
  split; [|split; [|split; [|split; [|split]]]].
  - unfold gather, mbind, IO_bind.
    rewrite (emit_each (fun t => ScrapeStarted (task_tab t))). fold w1.
    rewrite Hrun. now destruct out.
  - exact Ht.
  - rewrite Htr. simpl. now rewrite <- app_assoc.
  - apply Forall_forall. intros e He.
    apply list_elem_of_fmap in He as (i & -> & Hi).
    destruct (lookup_lt_is_Some_2 tasks i (Hrange i Hi)) as [t Et].
    exists t. split; [eapply list_elem_of_lookup_2; eauto|].
    unfold finished. now rewrite Et.
  - intros res Hres. destruct out as [slots'|msg|msg]; try discriminate.
    injection Hres as <-.
    destruct (Hret slots' eq_refl) as (Hl & Hi & _ & Hdone & Hfin).
    assert (Hfull : forall i, (i < length tasks)%nat -> slots' !! i <> Some None).
    { intros i Hi'. apply Hdone; [|assumption].
      apply elem_of_app. right. apply elem_of_seq. lia. }
    split.
    + apply slots_results; [|assumption|].
      * apply Forall2_length in Hset. lia.
      * intros i Hi'. apply Hfull. lia.
    + rewrite <- (finished_positions tasks []). simpl.
      apply Permutation_map. apply NoDup_Permutation; [assumption | apply NoDup_seq|].
      intros i. rewrite elem_of_seq. split.
      * intros Hi'. apply Hrange in Hi'. lia.
      * intros [_ Hi']. simpl in Hi'. apply Hfin; [|now apply Hfull].
        now apply lookup_replicate_2.
  - intros Hall. destruct (Htot Hall) as [slots' ->]. eauto.
Qed.

Lemma batch_segment_events first size seg :
  batch_segment first size seg ->
  open_tabs seg = 0%Z
  /\ forall j, (first <= j < first + size)%nat -> tab_done seg j.
Proof.
  intros (fin & -> & Hfin).
  assert (Hscrape : Forall scrape_event fin).
  { rewrite Hfin. apply Forall_forall. intros e He.
    apply list_elem_of_fmap in He as (t & -> & _). exact I. }
  assert (Hstart : Forall scrape_event (map ScrapeStarted (seq first size))).
  { apply Forall_forall. intros e He.
    apply list_elem_of_fmap in He as (t & -> & _). exact I. }
  split.
  - rewrite !open_tabs_app.
    rewrite (proj2 (tabs_within_opened _)), (proj2 (tabs_within_closed _)).
    rewrite (open_tabs_scrape_events _ Hscrape),
            (open_tabs_scrape_events _ Hstart). lia.
  - intros j Hj.
    assert (Hin : j ∈ seq first size) by (apply elem_of_seq; lia).
    unfold tab_done. rewrite !elem_of_app. repeat split.
    + left. now apply list_elem_of_fmap_2.
    + right. left. now apply list_elem_of_fmap_2.
    + right. right. left. rewrite Hfin. now apply list_elem_of_fmap_2.
    + right. right. right. now apply list_elem_of_fmap_2.
Qed.

Lemma tab_done_app_l a b t : tab_done a t -> tab_done (a ++ b) t.
Proof.
  unfold tab_done. rewrite !elem_of_app. tauto.
Qed.

Lemma tab_done_app_r a b t : tab_done b t -> tab_done (a ++ b) t.
Proof.
  unfold tab_done. rewrite !elem_of_app. tauto.
Qed.

Section OrchestratorFacts.
Context `{DocumentView}.
Variable browser_tab : nat -> Page.

Lemma tasks_from_settle first countries :
  Forall2 settles (tasks_from browser_tab first countries)
                  (outcomes_from browser_tab first countries).
Proof.
  revert first. induction countries as [|c cs IH]; intros first; simpl.
  - constructor.
  - constructor; [|apply IH].
    intros w. simpl. rewrite process_country_run. unfold scrape_outcome.
    destruct (navigation c (browser_tab first));
      eexists; (split; [reflexivity|]); split; reflexivity.
Qed.

Lemma tasks_from_tabs first countries :
  map task_tab (tasks_from browser_tab first countries)
  = seq first (length countries).
Proof.
  revert first. induction countries as [|c cs IH]; intros first; simpl.
  - reflexivity.
  - now rewrite IH.
Qed.

Lemma scrape_from_app first l1 l2 :
  scrape_from browser_tab first (l1 ++ l2)
  = scrape_from browser_tab first l1
    ++ scrape_from browser_tab (first + length l1) l2.
Proof.
  revert first. induction l1 as [|c l1 IH]; intros first; simpl.
  - now rewrite Nat.add_0_r.
  - rewrite IH. do 3 f_equal. lia.
Qed.

Lemma no_escape_cons first c cs :
  no_escape browser_tab first (c :: cs)
  <-> (forall msg, navigation c (browser_tab first) <> RaiseBase msg)
      /\ no_escape browser_tab (S first) cs.
Proof.
  unfold no_escape. split.
  - intros Hall. split.
    + intros msg. specialize (Hall 0%nat c msg eq_refl).
      now rewrite Nat.add_0_r in Hall.
    + intros j c' msg Hj. specialize (Hall (S j) c' msg Hj).
      now replace (first + S j)%nat with (S first + j)%nat in Hall by lia.
  - intros [H0 Hrest] [|j] c' msg Hj.
    + injection Hj as <-. rewrite Nat.add_0_r. apply H0.
    + replace (first + S j)%nat with (S first + j)%nat by lia.
      now apply Hrest.
Qed.

Lemma no_escape_app first l1 l2 :
  no_escape browser_tab first (l1 ++ l2)
  <-> no_escape browser_tab first l1
      /\ no_escape browser_tab (first + length l1) l2.
Proof.
  revert first. induction l1 as [|c l1 IH]; intros first.
  - simpl. rewrite Nat.add_0_r. split; [|tauto].
    intros Hx. split; [|assumption]. intros j c msg Hj. discriminate.
  - simpl. rewrite !no_escape_cons, IH.
    replace (S first + length l1)%nat with (first + S (length l1))%nat by lia.
    tauto.
Qed.

Lemma outcomes_returned first countries res :
  outcomes_from browser_tab first countries = Return <$> res ->
  res = scrape_from browser_tab first countries
  /\ no_escape browser_tab first countries.
Proof.
  revert first res. induction countries as [|c cs IH]; intros first res Hres.
  - destruct res; [|discriminate]. split; [reflexivity|].
    intros j c msg Hj. discriminate.
  - destruct res as [|r res]; [discriminate|].
    injection Hres as Hr Hrest.
    apply IH in Hrest as [-> Hrest].
    rewrite no_escape_cons. unfold scrape_outcome in Hr.
    destruct (navigation c (browser_tab first)) as [html|msg|msg] eqn:E;
      try discriminate.
    + injection Hr as <-. split; [reflexivity|]. split; [|assumption].
      intros msg. discriminate.
    + injection Hr as <-. split; [reflexivity|]. split; [|assumption].
      intros msg'. discriminate.
Qed.

Lemma outcomes_calm first countries :
  no_escape browser_tab first countries ->
  forall i o,
    outcomes_from browser_tab first countries !! i = Some o ->
    exists r, o = Return r.
Proof.
  revert first. induction countries as [|c cs IH]; intros first Hsafe i o Hi;
    [discriminate|].
  apply no_escape_cons in Hsafe as [H0 Hrest].
  destruct i as [|i].
  - injection Hi as <-. unfold scrape_outcome.
    destruct (navigation c (browser_tab first)) as [html|msg|msg] eqn:E; eauto.
    now destruct (H0 msg).
  - simpl in Hi. eapply IH; eauto.
Qed.

Lemma open_tabs_run batch pages tasks w :
  for_each (open_tab browser_tab) batch (pages, tasks) w =
  (Return (pages ++ tabs_from browser_tab (tabs_opened w) (length batch),
           tasks ++ tasks_from browser_tab (tabs_opened w) batch),
   {| console := console w;
      trace := trace w ++ map TabOpened (seq (tabs_opened w) (length batch));
      tabs_opened := tabs_opened w + length batch |}).
Proof.
  revert pages tasks w. induction batch as [|c batch IH]; intros pages tasks w.
  - simpl. unfold tabs_from. simpl. rewrite !app_nil_r, Nat.add_0_r.
    now destruct w.
  - simpl. unfold mbind, IO_bind, open_tab at 1, new_page.
    unfold mbind, IO_bind, mret, IO_ret. simpl fst. simpl snd.
    rewrite IH. unfold tabs_from. simpl.
    rewrite <- !app_assoc. simpl. do 3 f_equal. lia.
Qed.

Variable completion_order : nat -> list nat.

(** One batch: its tabs are opened and its scrapes are started; when every
    scrape returns, they finish in some order, the tabs are closed and the
    records are appended in the order of the countries of the batch; when a
    scrape raises, the batch ends there and its tabs stay open. *)
Lemma run_batch_run countries results i w batch :
  batch = slice countries i (i + batch_size) ->
  exists out w' seg,
    run_batch browser_tab completion_order countries results i w = (out, w')
    /\ trace w' = trace w ++ seg
    /\ Forall (fun e =>
                 (tabs_opened w <= event_tab e
                  < tabs_opened w + length batch)%nat) seg
    /\ tabs_within 0 (Z.of_nat (length batch)) seg
    /\ (forall rs,
          out = Return rs ->
          rs = results ++ concat (scrape_from browser_tab (tabs_opened w) batch)
          /\ tabs_opened w' = (tabs_opened w + length batch)%nat
          /\ batch_segment (tabs_opened w) (length batch) seg
          /\ no_escape browser_tab (tabs_opened w) batch)
    /\ (no_escape browser_tab (tabs_opened w) batch ->
        exists rs, out = Return rs).
Proof.
  intros Hbatch.
  set (k := tabs_opened w).
  set (ids := seq k (length batch)).
  set (w1 := {| console := console w;
                trace := trace w ++ map TabOpened ids;
                tabs_opened := k + length batch |}).
  destruct (gather_run (completion_order i) (tasks_from browser_tab k batch)
              (outcomes_from browser_tab k batch) w1
              (tasks_from_settle k batch))
    as (gout & w2 & fin & Hg & Ht2 & Htr2 & Hev & Hret & Htot).
  assert (Hids : length ids = length batch) by apply length_seq.
  assert (Hstarted :
    map (fun t : Task (list PriceRecord) => ScrapeStarted (task_tab t))
        (tasks_from browser_tab k batch)
    = map ScrapeStarted ids).
  { unfold ids. rewrite <- tasks_from_tabs, map_map. reflexivity. }
  assert (Hfinished :
    map (fun t : Task (list PriceRecord) => ScrapeFinished (task_tab t))
        (tasks_from browser_tab k batch)
    = map ScrapeFinished ids).
  { unfold ids. rewrite <- tasks_from_tabs, map_map. reflexivity. }
  assert (Hclosed :
    map (fun p => TabClosed (tab_id p)) (tabs_from browser_tab k (length batch))
    = map TabClosed ids).
  { unfold tabs_from. rewrite map_map. reflexivity. }
  rewrite Hstarted in Htr2. rewrite Hfinished in Hret.
  set (closes := match gout with
                 | Return _ => map TabClosed ids
                 | _ => []
                 end).
  assert (Hseq : forall f : nat -> Event,
            (forall t, event_tab (f t) = t) ->
            Forall (fun e => (k <= event_tab e < k + length batch)%nat)
                   (map f ids)).
  { intros f Hf. apply Forall_forall. intros e He.
    apply list_elem_of_fmap in He as (t & -> & Ht).
    apply elem_of_seq in Ht. rewrite Hf. lia. }
  assert (Hfin_scrape : Forall scrape_event fin).
  { eapply Forall_impl; [exact Hev|]. intros e (t & _ & ->). exact I. }
  assert (Hstart_scrape : Forall scrape_event (map ScrapeStarted ids)).
  { apply Forall_forall. intros e He.
    apply list_elem_of_fmap in He as (t & -> & _). exact I. }
  exists (match gout with
          | Return res => Return (results ++ concat res)
          | Raise msg => Raise msg
          | RaiseBase msg => RaiseBase msg
          end),
         {| console := console w2;
            trace := trace w2 ++ closes;
            tabs_opened := tabs_opened w2 |},
         (map TabOpened ids ++ map ScrapeStarted ids ++ fin ++ closes).
  split; [|split; [|split; [|split; [|split]]]].
  - unfold run_batch, mbind, IO_bind. rewrite <- Hbatch.
    rewrite open_tabs_run. fold k. fold ids. fold w1. simpl fst. simpl snd.
    rewrite Hg. unfold closes. destruct gout as [res|msg|msg].
    + unfold close. rewrite (emit_each (fun p => TabClosed (tab_id p))).
      unfold mret, IO_ret. rewrite foldl_extend, Hclosed. reflexivity.
    + rewrite app_nil_r. now destruct w2.
    + rewrite app_nil_r. now destruct w2.
  - simpl. rewrite Htr2. simpl. now rewrite <- !app_assoc.
  - repeat apply Forall_app_2; try (apply Hseq; reflexivity).
    + eapply Forall_impl; [exact Hev|]. intros e (t & Ht & ->). simpl.
      apply (list_elem_of_fmap_2 task_tab) in Ht.
      rewrite tasks_from_tabs in Ht. apply elem_of_seq in Ht. lia.
    + unfold closes. destruct gout; [apply Hseq; reflexivity|constructor..].
  - destruct (tabs_within_opened ids) as [Ho1 Ho2].
    pose proof (open_tabs_scrape_events _ Hstart_scrape) as Hs2.
    pose proof (tabs_within_scrape_events _ Hstart_scrape) as Hs1.
    pose proof (open_tabs_scrape_events _ Hfin_scrape) as Hf2.
    pose proof (tabs_within_scrape_events _ Hfin_scrape) as Hf1.
    assert (Hc1 : tabs_within (- Z.of_nat (length ids)) 0 closes).
    { unfold closes. destruct gout; [apply tabs_within_closed|..];
        intros p Hp; apply prefix_nil_inv in Hp as ->; simpl; lia. }
    rewrite <- Hids.
    apply tabs_within_app; [exact Ho1|].
    apply tabs_within_app;
      [eapply tabs_within_weaken; [| |exact Hs1]; lia|].
    apply tabs_within_app;
      [eapply tabs_within_weaken; [| |exact Hf1]; lia|].
    eapply tabs_within_weaken; [| |exact Hc1]; lia.
  - intros rs Hrs. destruct gout as [res|msg|msg]; try discriminate.
    injection Hrs as <-.
    destruct (Hret res eq_refl) as [Houts Hperm].
    apply outcomes_returned in Houts as [-> Hsafe].
    split; [reflexivity|]. split; [simpl; now rewrite Ht2|].
    split; [|assumption].
    exists fin. split; [reflexivity | exact Hperm].
  - intros Hsafe. destruct (Htot (outcomes_calm k batch Hsafe)) as [res ->].
    eauto.
Qed.

End OrchestratorFacts.

(** *** The loop over the batches *)

Lemma div_batch a x :
  (a * batch_size <= x < a * batch_size + batch_size)%nat ->
  (x / batch_size)%nat = a.
Proof.
  unfold batch_size. intros Hx. symmetry.
  apply (Nat.div_unique x 5 a (x - a * 5)); lia.
Qed.

Lemma div_batch_lower a x :
  (a * batch_size <= x)%nat -> (a <= x / batch_size)%nat.
Proof.
  intros Hx. apply Nat.div_le_lower_bound; [discriminate | lia].
Qed.

Lemma div_batch_lt x y :
  (x / batch_size < y / batch_size)%nat -> (x < y)%nat.
Proof.
  intros Hlt. destruct (decide (x < y)%nat) as [|Hge]; [assumption|].
  exfalso. assert (Hle : (y <= x)%nat) by lia.
  apply (Nat.Div0.div_le_mono _ _ batch_size) in Hle. lia.
Qed.

Lemma batch_count_bound n :
  (n <= (n + batch_size - 1) / batch_size * batch_size < n + batch_size)%nat.
Proof.
  unfold batch_size.
  pose proof (Nat.div_mod_eq (n + 5 - 1) 5) as Hd.
  pose proof (Nat.mod_upper_bound (n + 5 - 1) 5) as Hm. lia.
Qed.

Lemma slice_take {A} (l : list A) i m : slice l i (i + m) = take m (drop i l).
Proof. unfold slice. symmetry. apply take_drop_commute. Qed.

Lemma take_next_batch {A} (l : list A) a m :
  take (S m * batch_size) (drop (a * batch_size) l)
  = take batch_size (drop (a * batch_size) l)
    ++ take (m * batch_size) (drop (S a * batch_size) l).
Proof.
  replace (S a * batch_size)%nat with (a * batch_size + batch_size)%nat by lia.
  replace (S m * batch_size)%nat with (batch_size + m * batch_size)%nat by lia.
  rewrite <- drop_drop. symmetry. apply take_take_drop.
Qed.

Lemma concat_slices {A} (l : list A) m : forall a,
  concat (map (fun i => slice l i (i + batch_size))
              (map (fun k => (k * batch_size)%nat) (seq a m)))
  = take (m * batch_size) (drop (a * batch_size) l).
Proof.
  induction m as [|m IH]; intros a; [reflexivity|].
  simpl seq. simpl map. simpl concat.
  now rewrite IH, slice_take, take_next_batch.
Qed.

Lemma sorted_same_key {A} (f : A -> nat) (a : nat) (l : list A) :
  Forall (fun e => f e = a) l ->
  StronglySorted (fun x y => (f x <= f y)%nat) l.
Proof.
  induction 1 as [|x l Hx Hl IH]; constructor; [assumption|].
  eapply Forall_impl; [exact Hl|]. simpl. intros y Hy. lia.
Qed.

Lemma sorted_lookup {A} (R : A -> A -> Prop) (l : list A) :
  StronglySorted R l ->
  forall p q x y,
    l !! p = Some x -> l !! q = Some y -> (p < q)%nat -> R x y.
Proof.
  induction 1 as [|a l _ IH Ha]; intros p q x y Hp Hq Hlt; [discriminate|].
  destruct q as [|q]; [lia|]. destruct p as [|p].
  - injection Hp as <-. rewrite Forall_forall in Ha. apply Ha.
    eapply list_elem_of_lookup_2. exact Hq.
  - apply (IH p q); [assumption..|lia].
Qed.

(** In a list sorted by a key, an element with a smaller key stands
    before. *)
Lemma sorted_before {A} (f : A -> nat) (l : list A) q x y :
  StronglySorted (fun x y => (f x <= f y)%nat) l ->
  l !! q = Some y ->
  x ∈ l ->
  (f x < f y)%nat ->
  exists p, (p < q)%nat /\ l !! p = Some x.
Proof.
  intros Hsorted Hq Hx Hlt.
  apply list_elem_of_lookup in Hx as [p Hp].
  exists p. split; [|assumption].
  destruct (decide (p < q)%nat) as [|Hge]; [assumption|]. exfalso.
  destruct (decide (p = q)) as [->|Hpq].
  - rewrite Hp in Hq. injection Hq as ->. lia.
  - pose proof (sorted_lookup _ _ Hsorted q p y x Hq Hp ltac:(lia)) as Hle.
    simpl in Hle. lia.
Qed.

Section OrchestratorLoop.
Context `{DocumentView}.
Variable browser_tab : nat -> Page.
Variable completion_order : nat -> list nat.

(** The batches from the [a]-th one on, [m] of them: the events of a batch
    stand before those of the next one, never more than [batch_size] tabs
    are open, and a batch is begun only when the one before it is done.
    When the loop returns, every batch has left its segment of events and
    its part of the records. *)
Lemma batches_run (countries : list str) (k0 m : nat) :
  forall a results w,
    tabs_opened w = (k0 + min (a * batch_size) (length countries))%nat ->
    exists out w' evs,
      for_each (run_batch browser_tab completion_order countries)
        (map (fun k => (k * batch_size)%nat) (seq a m)) results w = (out, w')
      /\ trace w' = trace w ++ evs
      /\ StronglySorted
           (fun e1 e2 => (batch_of k0 e1 <= batch_of k0 e2)%nat) evs
      /\ Forall (fun e => (a <= batch_of k0 e)%nat) evs
      /\ Forall (fun e => (k0 <= event_tab e < k0 + length countries)%nat) evs
      /\ tabs_within 0 (Z.of_nat batch_size) evs
      /\ (forall e j,
            e ∈ evs ->
            (a * batch_size <= j)%nat ->
            (j / batch_size < batch_of k0 e)%nat ->
            tab_done evs (k0 + j))
      /\ (forall rs,
            out = Return rs ->
            rs = results ++
                 concat (scrape_from browser_tab (tabs_opened w)
                           (take (m * batch_size)
                                 (drop (a * batch_size) countries)))
            /\ tabs_opened w' =
               (k0 + min ((a + m) * batch_size) (length countries))%nat
            /\ open_tabs evs = 0%Z
            /\ (forall j,
                  (min (a * batch_size) (length countries) <= j
                   < min ((a + m) * batch_size) (length countries))%nat ->
                  tab_done evs (k0 + j))
            /\ no_escape browser_tab (tabs_opened w)
                 (take (m * batch_size) (drop (a * batch_size) countries))
            /\ exists segs parts,
                 evs = concat segs
                 /\ rs = results ++ concat parts
                 /\ length segs = m
                 /\ length parts = m
                 /\ forall i,
                      (i < m)%nat ->
                      (exists seg,
                         segs !! i = Some seg
                         /\ batch_segment
                              (k0 + min ((a + i) * batch_size) (length countries))
                              (min batch_size
                                   (length countries - (a + i) * batch_size))
                              seg)
                      /\ parts !! i =
                         Some (concat
                                 (scrape_from browser_tab
                                    (k0 + min ((a + i) * batch_size)
                                              (length countries))
                                    (slice countries ((a + i) * batch_size)
                                       ((a + i) * batch_size + batch_size)))))
      /\ (no_escape browser_tab (tabs_opened w)
            (take (m * batch_size) (drop (a * batch_size) countries)) ->
          exists rs, out = Return rs).
Proof.
  induction m as [|m IH]; intros a results w Hw.
  - exists (Return results), w, []. simpl. rewrite !app_nil_r.
    split; [reflexivity|]. split; [reflexivity|].
    split; [constructor|]. split; [constructor|]. split; [constructor|].
    split.
    { intros p Hp. apply prefix_nil_inv in Hp as ->. simpl. lia. }
    split.
    { intros e j He. now apply elem_of_nil in He. }
    split; [|eauto].
    intros rs [= <-]. split; [reflexivity|].
    split; [now rewrite Nat.add_0_r|]. split; [reflexivity|].
    split; [intros j Hj; lia|]. split.
    { intros j c msg Hj. discriminate. }
    exists [], []. simpl. rewrite app_nil_r.
    repeat (split; [reflexivity|]). intros i Hi. lia.
  - set (batch := take batch_size (drop (a * batch_size) countries)).
    assert (Hslice : batch = slice countries (a * batch_size)
                               (a * batch_size + batch_size))
      by (now rewrite slice_take).
    destruct (run_batch_run browser_tab completion_order countries results
                (a * batch_size) w batch Hslice)
      as (out1 & w1 & seg & Hrun & Htr1 & Hseg & Hwithin & Hret1 & Htot1).
    assert (Hlen : length batch
                   = min batch_size (length countries - a * batch_size)).
    { unfold batch. now rewrite length_take, length_drop. }
    assert (Hbatch : Forall (fun e => batch_of k0 e = a) seg).
    { eapply Forall_impl; [exact Hseg|]. intros e He. simpl in He.
      unfold batch_of. apply div_batch.
      rewrite Hw, Hlen in He. unfold batch_size in *. lia. }
    assert (Hrange :
      Forall (fun e => (k0 <= event_tab e < k0 + length countries)%nat) seg).
    { eapply Forall_impl; [exact Hseg|]. intros e He. simpl in He.
      rewrite Hw, Hlen in He. unfold batch_size in *. lia. }
    assert (Hsmall : (Z.of_nat (length batch) <= Z.of_nat batch_size)%Z).
    { rewrite Hlen. lia. }
    assert (Hfirst :
      forall e j, e ∈ seg -> (a * batch_size <= j)%nat ->
                  (j / batch_size < batch_of k0 e)%nat -> False).
    { intros e j He Hj Hlt. rewrite Forall_forall in Hbatch.
      rewrite (Hbatch e He) in Hlt. apply div_batch_lower in Hj. lia. }
    rewrite take_next_batch. fold batch.
    destruct out1 as [rs1|msg|msg].
    + destruct (Hret1 rs1 eq_refl) as (Hrs1 & Ht1 & Hbs & Hsafe1).
      destruct (batch_segment_events _ _ _ Hbs) as [Hopen1 Hdone1].
      assert (Hw1 : tabs_opened w1
                    = (k0 + min (S a * batch_size) (length countries))%nat).
      { rewrite Ht1, Hw, Hlen. unfold batch_size. lia. }
      destruct (IH (S a) rs1 w1 Hw1)
        as (out & w' & evs & Hloop & Htr' & Hsorted & Hfrom & Hrange'
            & Hwithin' & Hbarrier & Hret & Htot).
      exists out, w', (seg ++ evs).
      split; [|split; [|split; [|split; [|split; [|split; [|split; [|split]]]]]]].
      * cbn [seq map for_each]. unfold mbind, IO_bind. now rewrite Hrun.
      * rewrite Htr', Htr1. now rewrite <- app_assoc.
      * apply StronglySorted_app. split; [|split].
        -- intros x1 x2 Hx1 Hx2. rewrite Forall_forall in Hbatch, Hfrom.
           rewrite (Hbatch _ Hx1). specialize (Hfrom _ Hx2). simpl in Hfrom.
           lia.
        -- now apply sorted_same_key with (a := a).
        -- assumption.
      * apply Forall_app. split.
        -- eapply Forall_impl; [exact Hbatch|]. simpl. intros e He. lia.
        -- eapply Forall_impl; [exact Hfrom|]. simpl. intros e He. lia.
      * now apply Forall_app.
      * apply tabs_within_app.
        -- eapply tabs_within_weaken; [| |exact Hwithin]; lia.
        -- rewrite Hopen1.
           eapply tabs_within_weaken; [| |exact Hwithin']; lia.
      * intros e j He Hj Hlt. apply elem_of_app in He as [He|He];
          [now destruct (Hfirst e j He Hj Hlt)|].
        assert (Hjn : (j < length countries)%nat).
        { rewrite Forall_forall in Hrange'. specialize (Hrange' e He).
          simpl in Hrange'. unfold batch_of in Hlt.
          apply div_batch_lt in Hlt. lia. }
        destruct (decide (j < S a * batch_size)%nat) as [Hin|Hout].
        -- apply tab_done_app_l. apply Hdone1.
           rewrite Hw, Hlen. unfold batch_size in *. lia.
        -- apply tab_done_app_r. apply (Hbarrier e j He); [lia | assumption].
      * intros rs Hout.
        destruct (Hret rs Hout)
          as (Hrs & Ht' & Hopen & Hall & Hsafe & segs & parts
              & Hsegs & Hparts & Hls & Hlp & Heach).
        split.
        { rewrite Hrs, Hrs1, Ht1, <- app_assoc. f_equal.
          now rewrite <- concat_app, <- scrape_from_app. }
        split; [rewrite Ht'; f_equal; f_equal; lia|].
        split; [rewrite open_tabs_app, Hopen1, Hopen; reflexivity|].
        split.
        { intros j Hj.
          destruct (decide (j < min (S a * batch_size) (length countries))%nat)
            as [Hlt|Hge].
          - apply tab_done_app_l. apply Hdone1.
            rewrite Hw, Hlen. unfold batch_size in *. lia.
          - apply tab_done_app_r. apply Hall.
            replace (S a + m)%nat with (a + S m)%nat by lia. lia. }
        split.
        { rewrite no_escape_app. split; [assumption|]. now rewrite <- Ht1. }
        exists (seg :: segs),
               (concat (scrape_from browser_tab (tabs_opened w) batch) :: parts).
        split; [simpl; now rewrite Hsegs|].
        split; [rewrite Hparts, Hrs1, <- app_assoc; reflexivity|].
        split; [simpl; now rewrite Hls|]. split; [simpl; now rewrite Hlp|].
        intros [|i] Hi.
        -- rewrite Nat.add_0_r, <- Hw, <- Hlen, <- Hslice. split; [|reflexivity].
           exists seg. split; [reflexivity | assumption].
        -- replace (a + S i)%nat with (S a + i)%nat by lia.
           apply Heach. lia.
      * intros Hsafe. apply no_escape_app in Hsafe as [_ Hsafe].
        apply Htot. now rewrite Ht1.
    + exists (Raise msg), w1, seg.
      split; [cbn [seq map for_each]; unfold mbind, IO_bind; now rewrite Hrun|].
      split; [assumption|].
      split; [now apply sorted_same_key with (a := a)|].
      split; [eapply Forall_impl; [exact Hbatch|]; simpl; intros e He; lia|].
      split; [assumption|].
      split; [eapply tabs_within_weaken; [| |exact Hwithin]; lia|].
      split; [intros e j He Hj Hlt; now destruct (Hfirst e j He Hj Hlt)|].
      split; [discriminate|].
      intros Hsafe. apply no_escape_app in Hsafe as [Hsafe _].
      destruct (Htot1 Hsafe) as [rs Hrs]. discriminate.
    + exists (RaiseBase msg), w1, seg.
      split; [cbn [seq map for_each]; unfold mbind, IO_bind; now rewrite Hrun|].
      split; [assumption|].
      split; [now apply sorted_same_key with (a := a)|].
      split; [eapply Forall_impl; [exact Hbatch|]; simpl; intros e He; lia|].
      split; [assumption|].
      split; [eapply tabs_within_weaken; [| |exact Hwithin]; lia|].
      split; [intros e j He Hj Hlt; now destruct (Hfirst e j He Hj Hlt)|].
      split; [discriminate|].
      intros Hsafe. apply no_escape_app in Hsafe as [Hsafe _].
      destruct (Htot1 Hsafe) as [rs Hrs]. discriminate.
Qed.

End OrchestratorLoop.

(** ** The claims on the orchestrator *)

Lemma batches_lookup_slice {A} (countries : list A) k batch :
  batches countries !! k = Some batch ->
  batch = slice countries (k * batch_size) (k * batch_size + batch_size)
  /\ (k * batch_size < length countries)%nat.
Proof.
  unfold batches, range_step. intros Hk.
  apply (list_lookup_fmap_Some (fun i => slice countries i (i + batch_size)))
    in Hk as (i & -> & Hi).
  apply (list_lookup_fmap_Some (fun k => (k * batch_size)%nat))
    in Hi as (k' & -> & Hk').
  apply lookup_seq in Hk' as [-> Hlt]. split; [reflexivity|].
  pose proof (batch_count_bound (length countries)) as Hn.
  unfold batch_size in *. lia.
Qed.

Lemma batches_lookup {A} (countries : list A) k batch :
  batches countries !! k = Some batch ->
  (0 < length batch)%nat
  /\ length batch = min batch_size (length countries - k * batch_size).
Proof.
  intros Hk. apply batches_lookup_slice in Hk as [-> Hlt].
  rewrite slice_take, length_take, length_drop.
  unfold batch_size in *. split; lia.
Qed.

Lemma batches_length {A} (countries : list A) :
  length (batches countries)
  = ((length countries + batch_size - 1) / batch_size)%nat.
Proof.
  unfold batches, range_step. now rewrite !length_map, length_seq.
Qed.

Lemma batches_concat {A} (countries : list A) :
  concat (batches countries) = countries.
Proof.
  unfold batches, range_step. rewrite concat_slices.
  pose proof (batch_count_bound (length countries)) as Hn.
  change (0 * batch_size)%nat with 0%nat.
  rewrite drop_0. apply take_ge. lia.
Qed.

Lemma batches_of_twelve {A} (countries : list A) :
  length countries = 12%nat ->
  length <$> batches countries = [5; 5; 2]%nat.
Proof.
  intros Hlen.
  repeat (destruct countries as [|? countries]; try discriminate).
  reflexivity.
Qed.

Lemma batch_of_tab first j (e : Event) :
  event_tab e = (first + j)%nat -> batch_of first e = (j / batch_size)%nat.
Proof.
  intros He. unfold batch_of. rewrite He. f_equal. lia.
Qed.

Section OrchestratorClaims.
Context `{DocumentView}.
Variable browser_tab : nat -> Page.
Variable completion_order : nat -> list nat.

(** The whole loop of [main], on every browser and for every order in
    which the tasks of a batch complete. *)
Lemma main_batches_run (countries : list str) (w : World) :
  exists out w' evs,
    main_batches browser_tab completion_order countries w = (out, w')
    /\ trace w' = trace w ++ evs
    /\ StronglySorted
         (fun e1 e2 =>
            (batch_of (tabs_opened w) e1 <= batch_of (tabs_opened w) e2)%nat) evs
    /\ tabs_within 0 (Z.of_nat batch_size) evs
    /\ (forall e j,
          e ∈ evs ->
          (j / batch_size < batch_of (tabs_opened w) e)%nat ->
          tab_done evs (tabs_opened w + j))
    /\ (forall rs,
          out = Return rs ->
          rs = concat (scrape_from browser_tab (tabs_opened w) countries)
          /\ tabs_opened w' = (tabs_opened w + length countries)%nat
          /\ open_tabs evs = 0%Z
          /\ (forall j, (j < length countries)%nat ->
                tab_done evs (tabs_opened w + j))
          /\ no_escape browser_tab (tabs_opened w) countries
          /\ exists segs parts,
               evs = concat segs
               /\ rs = concat parts
               /\ length segs = length (batches countries)
               /\ length parts = length (batches countries)
               /\ forall k batch,
                    batches countries !! k = Some batch ->
                    (exists seg,
                       segs !! k = Some seg
                       /\ batch_segment (tabs_opened w + k * batch_size)
                            (length batch) seg)
                    /\ parts !! k =
                       Some (concat
                               (scrape_from browser_tab
                                  (tabs_opened w + k * batch_size) batch)))
    /\ (no_escape browser_tab (tabs_opened w) countries ->
        exists rs, out = Return rs).
Proof.
  pose proof (batch_count_bound (length countries)) as Hn.
  pose proof (batches_length countries) as Hcount.
  set (m := ((length countries + batch_size - 1) / batch_size)%nat) in *.
  destruct (batches_run browser_tab completion_order countries (tabs_opened w)
              m 0 [] w)
    as (out & w' & evs & Hrun & Htr & Hsorted & _ & _ & Hwithin & Hbarrier
        & Hret & Htot).
  { simpl. lia. }
  assert (Hwhole : take (m * batch_size) (drop (0 * batch_size) countries)
                   = countries).
  { change (0 * batch_size)%nat with 0%nat. rewrite drop_0.
    apply take_ge. lia. }
  rewrite Hwhole in Hret, Htot.
  exists out, w', evs.
  split; [exact Hrun|]. split; [exact Htr|]. split; [exact Hsorted|].
  split; [exact Hwithin|]. split.
  { intros e j He Hlt. apply (Hbarrier e j He); [simpl; lia | exact Hlt]. }
  split; [|exact Htot].
  intros rs Hout.
  destruct (Hret rs Hout)
    as (Hrs & Ht' & Hopen & Hall & Hsafe & segs & parts
        & Hsegs & Hparts & Hls & Hlp & Heach).
  split; [exact Hrs|]. split; [rewrite Ht'; simpl; lia|].
  split; [exact Hopen|]. split.
  { intros j Hj. apply Hall. simpl. lia. }
  split; [exact Hsafe|].
  exists segs, parts. split; [exact Hsegs|]. split; [exact Hparts|].
  split; [congruence|]. split; [congruence|].
  intros k batch Hk.
  pose proof (batches_lookup _ _ _ Hk) as [_ Hlen].
  pose proof (lookup_lt_Some _ _ _ Hk) as Hkm. rewrite Hcount in Hkm.
  apply batches_lookup_slice in Hk as [-> Hlt].
  specialize (Heach k Hkm). cbn [Nat.add] in Heach.
  rewrite (Nat.min_l (k * batch_size) (length countries)) in Heach by lia.
  rewrite Hlen. exact Heach.
Qed.

(** C3: the country list is cut into consecutive batches of five (the last
    one may be shorter; twelve countries give batches of 5, 5 and 2), and
    the loop of [main] works batch by batch on them.  Whenever the loop
    returns, the [k]-th batch has left its own segment of events (its tabs,
    numbered from [5 k] after the first one, are opened, its scrapes are
    started, they finish in some order, its tabs are closed) and its own
    part of the records, and the records returned are the records of each
    country in the order of the country list, whatever the order in which
    the tasks of a batch complete.  The loop returns unless a scrape raises
    an exception that is not an [Exception]. *)
Theorem batches_in_country_order (countries : list str) (w : World) :
  concat (batches countries) = countries
  /\ (forall k batch,
        batches countries !! k = Some batch ->
        (0 < length batch)%nat
        /\ length batch = min batch_size (length countries - k * batch_size))
  /\ (length countries = 12%nat ->
      length <$> batches countries = [5; 5; 2]%nat)
  /\ (forall rs w',
        main_batches browser_tab completion_order countries w
        = (Return rs, w') ->
        rs = concat (scrape_from browser_tab (tabs_opened w) countries)
        /\ exists segs parts,
             trace w' = trace w ++ concat segs
             /\ rs = concat parts
             /\ length segs = length (batches countries)
             /\ length parts = length (batches countries)
             /\ forall k batch,
                  batches countries !! k = Some batch ->
                  (exists seg,
                     segs !! k = Some seg
                     /\ batch_segment (tabs_opened w + k * batch_size)
                          (length batch) seg)
                  /\ parts !! k =
                     Some (concat
                             (scrape_from browser_tab
                                (tabs_opened w + k * batch_size) batch)))
  /\ (no_escape browser_tab (tabs_opened w) countries ->
      exists rs w',
        main_batches browser_tab completion_order countries w
        = (Return rs, w')).
Proof.
  split; [apply batches_concat|].
  split; [apply batches_lookup|].
  split; [apply batches_of_twelve|].
  destruct (main_batches_run countries w)
    as (out & w1 & evs & Hrun & Htr & _ & _ & _ & Hret & Htot).
  split.
  - intros rs w' Hmain. rewrite Hrun in Hmain. injection Hmain as -> ->.
    destruct (Hret rs eq_refl)
      as (Hrs & _ & _ & _ & _ & segs & parts & Hsegs & Hparts & Hrest).
    split; [exact Hrs|]. exists segs, parts.
    split; [now rewrite Htr, Hsegs|]. split; [exact Hparts | exact Hrest].
  - intros Hsafe. destruct (Htot Hsafe) as [rs ->]. eauto.
Qed.

(** C8: whenever a scrape of one batch finishes or a tab of that batch is
    closed, this happens before any tab of a later batch is opened and
    before any scrape of a later batch starts; and when a tab of a later
    batch is opened or a scrape of a later batch starts, every scrape of
    the batches before it has finished and every tab of theirs has been
    closed.  This holds on every run of the loop, also on one that a scrape
    ends by raising an exception that is not an [Exception].  When the loop
    returns, every country has had its tab opened, its scrape started and
    finished and its tab closed; and the loop returns unless a scrape
    raises such an exception. *)
Theorem batches_serialized (countries : list str) (w : World) :
  exists out w' evs,
    main_batches browser_tab completion_order countries w = (out, w')
    /\ trace w' = trace w ++ evs
    /\ (forall rs,
          out = Return rs ->
          forall j,
            (j < length countries)%nat ->
            TabOpened (tabs_opened w + j) ∈ evs
            /\ ScrapeStarted (tabs_opened w + j) ∈ evs
            /\ ScrapeFinished (tabs_opened w + j) ∈ evs
            /\ TabClosed (tabs_opened w + j) ∈ evs)
    /\ (forall j j' p q,
          (j / batch_size < j' / batch_size)%nat ->
          evs !! p = Some (ScrapeFinished (tabs_opened w + j))
          \/ evs !! p = Some (TabClosed (tabs_opened w + j)) ->
          evs !! q = Some (TabOpened (tabs_opened w + j'))
          \/ evs !! q = Some (ScrapeStarted (tabs_opened w + j')) ->
          (p < q)%nat)
    /\ (forall j j' q,
          (j / batch_size < j' / batch_size)%nat ->
          evs !! q = Some (TabOpened (tabs_opened w + j'))
          \/ evs !! q = Some (ScrapeStarted (tabs_opened w + j')) ->
          exists p p',
            (p < q)%nat /\ (p' < q)%nat
            /\ evs !! p = Some (ScrapeFinished (tabs_opened w + j))
            /\ evs !! p' = Some (TabClosed (tabs_opened w + j)))
    /\ (no_escape browser_tab (tabs_opened w) countries ->
        exists rs, out = Return rs).
Proof.
  destruct (main_batches_run countries w)
    as (out & w' & evs & Hrun & Htr & Hsorted & _ & Hbarrier & Hret & Htot).
  exists out, w', evs. split; [exact Hrun|]. split; [exact Htr|].
  split; [|split; [|split; [|exact Htot]]].
  - intros rs Hout j Hj.
    destruct (Hret rs Hout) as (_ & _ & _ & Hall & _). exact (Hall j Hj).
  - intros j j' p q Hlt Hp Hq.
    assert (Hb : forall e1 e2,
              evs !! p = Some e1 -> evs !! q = Some e2 ->
              event_tab e1 = (tabs_opened w + j)%nat ->
              event_tab e2 = (tabs_opened w + j')%nat ->
              e1 <> e2 -> (p < q)%nat).
    { intros e1 e2 H1 H2 Ht1 Ht2 Hne.
      destruct (decide (p < q)%nat) as [|Hge]; [assumption|]. exfalso.
      destruct (decide (p = q)) as [->|Hpq]; [congruence|].
      pose proof (sorted_lookup _ _ Hsorted q p e2 e1 H2 H1 ltac:(lia)) as Hle.
      simpl in Hle.
      rewrite (batch_of_tab _ _ _ Ht1), (batch_of_tab _ _ _ Ht2) in Hle.
      lia. }
    destruct Hp as [Hp|Hp]; destruct Hq as [Hq|Hq];
      apply (Hb _ _ Hp Hq); try reflexivity; discriminate.
  - intros j j' q Hlt Hq.
    assert (Hlater : exists e, evs !! q = Some e
                               /\ event_tab e = (tabs_opened w + j')%nat).
    { destruct Hq as [Hq|Hq]; eexists; (split; [exact Hq | reflexivity]). }
    destruct Hlater as (e & He & Htab).
    pose proof (batch_of_tab _ _ _ Htab) as Hbatch.
    destruct (Hbarrier e j) as (_ & _ & Hfin & Hclosed).
    { eapply list_elem_of_lookup_2. exact He. }
    { now rewrite Hbatch. }
    destruct (sorted_before (batch_of (tabs_opened w)) evs q
                (ScrapeFinished (tabs_opened w + j)) e Hsorted He Hfin)
      as (p & Hp & Hfp).
    { rewrite Hbatch, (batch_of_tab _ j); [assumption | reflexivity]. }
    destruct (sorted_before (batch_of (tabs_opened w)) evs q
                (TabClosed (tabs_opened w + j)) e Hsorted He Hclosed)
      as (p' & Hp' & Hcp).
    { rewrite Hbatch, (batch_of_tab _ j); [assumption | reflexivity]. }
    exists p, p'. auto.
Qed.

Lemma scrape_result_country country page r :
  r ∈ scrape_result country page -> Country r = country.
Proof.
  intros Hr.
  apply scrape_result_cases in Hr as [(msg & _ & ->)|(html & _ & Hr)];
    [reflexivity|].
  apply records_of_cases in Hr as [->|(li & _ & _ & ->)]; reflexivity.
Qed.

Lemma scrape_from_records first countries :
  no_escape browser_tab first countries ->
  (forall r,
     r ∈ concat (scrape_from browser_tab first countries) ->
     Country r ∈ countries)
  /\ (forall c,
        c ∈ countries ->
        exists r,
          r ∈ concat (scrape_from browser_tab first countries)
          /\ Country r = c)
  /\ (length countries
      <= length (concat (scrape_from browser_tab first countries)))%nat.
Proof.
  revert first. induction countries as [|c cs IH]; intros first Hsafe.
  - split; [|split]; [intros r Hr | intros c Hc | simpl; lia].
    + now apply elem_of_nil in Hr.
    + now apply elem_of_nil in Hc.
  - apply no_escape_cons in Hsafe as [Hsafe0 Hsafe].
    destruct (IH (S first) Hsafe) as (IH1 & IH2 & IH3). simpl.
    pose proof (scrape_result_nonempty c (browser_tab first) Hsafe0) as Hne.
    split; [|split].
    + intros r Hr. apply elem_of_app in Hr as [Hr|Hr].
      * apply scrape_result_country in Hr as ->. apply elem_of_cons. now left.
      * apply elem_of_cons. right. now apply IH1.
    + intros c' Hc'. apply elem_of_cons in Hc' as [->|Hc'].
      * destruct (scrape_result c (browser_tab first)) as [|r l] eqn:E;
          [contradiction|].
        exists r. split.
        -- apply elem_of_app. left. apply elem_of_cons. now left.
        -- apply (scrape_result_country c (browser_tab first)).
           rewrite E. apply elem_of_cons. now left.
      * destruct (IH2 c' Hc') as (r & Hr & Hcr).
        exists r. split; [apply elem_of_app; now right | assumption].
    + rewrite length_app.
      destruct (scrape_result c (browser_tab first)); [contradiction|].
      simpl. lia.
Qed.

(** X14: the records that the loop over the batches returns cover the
    country list: every country has at least one record, every record
    belongs to a country of the list, and there are at least as many
    records as countries. *)
Theorem every_country_has_a_record (countries : list str) (w w' : World)
    (rs : list PriceRecord) :
  main_batches browser_tab completion_order countries w = (Return rs, w') ->
  (forall c, c ∈ countries -> exists r, r ∈ rs /\ Country r = c)
  /\ (forall r, r ∈ rs -> Country r ∈ countries)
  /\ (length countries <= length rs)%nat.
Proof.
  destruct (main_batches_run countries w)
    as (out & w1 & evs & Hrun & _ & _ & _ & _ & Hret & _).
  rewrite Hrun. intros [= -> _].
  destruct (Hret rs eq_refl) as (-> & _ & _ & _ & Hsafe & _).
  destruct (scrape_from_records (tabs_opened w) countries Hsafe)
    as (H1 & H2 & H3).
  auto.
Qed.


(** X17: the loop over the batches opens one tab for each country. *)
Theorem one_tab_per_country (countries : list str) (w w' : World)
    (rs : list PriceRecord) :
  main_batches browser_tab completion_order countries w = (Return rs, w') ->
  tabs_opened w' = (tabs_opened w + length countries)%nat.
Proof.
  destruct (main_batches_run countries w)
    as (out & w1 & evs & Hrun & _ & _ & _ & _ & Hret & _).
  rewrite Hrun. intros [= -> ->].
  now destruct (Hret rs eq_refl) as (_ & Htabs & _).
Qed.

End OrchestratorClaims.

(** No call on a page of the browser of the scenario raises an exception
    that is not an [Exception]. *)
Lemma browser_no_escape first countries :
  no_escape Fixture.browser first countries.
Proof.
  intros j c msg _. destruct (first + j)%nat; discriminate.
Qed.

(** The loop over the batches returns in the scenario. *)
Lemma browser_returns countries :
  exists rs w',
    @main_batches Fixture.document Fixture.browser Fixture.fourth_first
      countries Fixture.start = (Return rs, w').
Proof.
  destruct (@main_batches_run Fixture.document Fixture.browser
              Fixture.fourth_first countries Fixture.start)
    as (out & w' & evs & Hrun & _ & _ & _ & _ & _ & Htot).
  destruct (Htot (browser_no_escape _ _)) as [rs ->]. eauto.
Qed.

(** A cancelled task ends the loop: the second of two tasks is cancelled,
    [gather] raises, the first task is left behind and no tab is closed. *)
Example cancelled_task_ends_loop :
  @main_batches Fixture.document Fixture.browser_cancelled Fixture.fourth_first
    [lit "Canada"; lit "Wakanda"] Fixture.start
  = (RaiseBase [],
     {| console := [];
        trace := [TabOpened 0; TabOpened 1; ScrapeStarted 0; ScrapeStarted 1];
        tabs_opened := 2 |}).
Proof. vm_compute. reflexivity. Qed.

Lemma batches_in_country_order_witness :
  length Fixture.twelve = 12%nat
  /\ length <$> batches Fixture.twelve = [5; 5; 2]%nat
  /\ no_escape Fixture.browser 0 Fixture.twelve
  /\ exists rs w',
       @main_batches Fixture.document Fixture.browser Fixture.fourth_first
         Fixture.twelve Fixture.start = (Return rs, w')
       /\ rs = concat (@scrape_from Fixture.document Fixture.browser 0
                         Fixture.twelve)
       /\ exists segs,
            trace w' = concat segs
            /\ length segs = 3%nat
            /\ exists seg,
                 segs !! 2%nat = Some seg
                 /\ batch_segment 10 2 seg.
Proof.
  destruct (@batches_in_country_order Fixture.document Fixture.browser
              Fixture.fourth_first Fixture.twelve Fixture.start)
    as (_ & _ & Htwelve & Hret & Htot).
  pose proof (browser_no_escape 0 Fixture.twelve) as Hsafe.
  split; [reflexivity|]. split; [apply Htwelve; reflexivity|].
  split; [exact Hsafe|].
  destruct (Htot Hsafe) as (rs & w' & Hrun).
  exists rs, w'. split; [exact Hrun|].
  destruct (Hret rs w' Hrun)
    as (Hrs & segs & parts & Htr & _ & Hls & _ & Heach).
  split; [exact Hrs|]. exists segs. split; [exact Htr|].
  split; [exact Hls|].
  destruct (Heach 2%nat (slice Fixture.twelve 10 15) eq_refl)
    as [(seg & Hseg & Hbs) _].
  exists seg. split; [exact Hseg | exact Hbs].
Defined.

Lemma batches_serialized_witness :
  let out := @main_batches Fixture.document Fixture.browser
               Fixture.fourth_first Fixture.twelve Fixture.start in
  trace out.2 !! 19%nat = Some (TabClosed 4)
  /\ trace out.2 !! 20%nat = Some (TabOpened 5)
  /\ (4 / batch_size < 5 / batch_size)%nat
  /\ (19 < 20)%nat
  /\ exists p, (p < 20)%nat /\ trace out.2 !! p = Some (ScrapeFinished 4).
Proof.
  intros out.
  destruct (@batches_serialized Fixture.document Fixture.browser
              Fixture.fourth_first Fixture.twelve Fixture.start)
    as (o & w' & evs & Hrun & Htr & _ & Hord & Hbar & _).
  assert (Hout : trace out.2 = evs).
  { unfold out. rewrite Hrun. exact Htr. }
  assert (H19 : trace out.2 !! 19%nat = Some (TabClosed 4)).
  { vm_compute. reflexivity. }
  assert (H20 : trace out.2 !! 20%nat = Some (TabOpened 5)).
  { vm_compute. reflexivity. }
  assert (Hlt : (4 / batch_size < 5 / batch_size)%nat).
  { vm_compute. lia. }
  split; [exact H19 | split; [exact H20 | split; [exact Hlt|]]].
  rewrite Hout in *. split.
  - apply (Hord 4%nat 5%nat 19%nat 20%nat Hlt);
      [right; exact H19 | left; exact H20].
  - destruct (Hbar 4%nat 5%nat 20%nat Hlt (or_introl H20))
      as (p & _ & Hp & _ & Hfin & _).
    exists p. split; [exact Hp | exact Hfin].
Defined.

Lemma one_tab_per_country_witness :
  exists rs w',
    @main_batches Fixture.document Fixture.browser Fixture.fourth_first
      Fixture.twelve Fixture.start = (Return rs, w')
    /\ tabs_opened w' = 12%nat.
Proof.
  destruct (browser_returns Fixture.twelve) as (rs & w' & Hrun).
  exists rs, w'. split; [exact Hrun|].
  exact (@one_tab_per_country Fixture.document Fixture.browser
           Fixture.fourth_first _ _ _ _ Hrun).
Defined.

Lemma every_country_has_a_record_witness :
  exists rs w',
    @main_batches Fixture.document Fixture.browser Fixture.fourth_first
      [lit "Canada"; lit "Wakanda"] Fixture.start = (Return rs, w')
    /\ lit "Wakanda" ∈ [lit "Canada"; lit "Wakanda"]
    /\ exists r, r ∈ rs /\ Country r = lit "Wakanda".
Proof.
  destruct (browser_returns [lit "Canada"; lit "Wakanda"]) as (rs & w' & Hrun).
  exists rs, w'. split; [exact Hrun|].
  assert (Hin : lit "Wakanda" ∈ [lit "Canada"; lit "Wakanda"]).
  { apply elem_of_cons. right. apply elem_of_cons. now left. }
  split; [exact Hin|].
  exact (proj1 (@every_country_has_a_record Fixture.document Fixture.browser
                  Fixture.fourth_first _ _ _ _ Hrun) _ Hin).
Defined.

